(** * go-syncmap-cache: a shallow embedding of [cache.go]

    The store is a [sync.Map] from string keys to [Item]s, an atomic
    [uint32] counter, and an optional eviction hook.  Every method of
    [*cache] becomes a function on an explicit [cache] state.  A method
    that reads the clock takes the reading ([time.Now().UnixNano()]) as
    an argument; a method that can abort returns an [outcome]. *)

From Stdlib Require Import ZArith Lia SpecFloat.
From stdpp Require Import gmap strings list fin_maps.

#[local] Open Scope Z_scope.

(** ** Go's fixed-width arithmetic *)

Module GoNum.

(** An unsigned [w]-bit integer keeps the low [w] bits. *)
Definition wrapU (w z : Z) : Z := z mod 2 ^ w.

(** A signed [w]-bit integer is the two's complement reading of them. *)
Definition wrapS (w z : Z) : Z := (z + 2 ^ (w - 1)) mod 2 ^ w - 2 ^ (w - 1).

(** Width of [int], [uint] and [uintptr]: a 64-bit platform. *)
Definition uintSize : Z := 64.

Inductive intKind :=
| Int | Int8 | Int16 | Int32 | Int64
| Uint | Uintptr | Uint8 | Uint16 | Uint32 | Uint64.

#[global] Instance intKind_eq_dec : EqDecision intKind.
Proof. solve_decision. Defined.

Definition signed (kd : intKind) : bool :=
  match kd with
  | Int | Int8 | Int16 | Int32 | Int64 => true
  | Uint | Uintptr | Uint8 | Uint16 | Uint32 | Uint64 => false
  end.

Definition bits (kd : intKind) : Z :=
  match kd with
  | Int | Uint | Uintptr => uintSize
  | Int8 | Uint8 => 8
  | Int16 | Uint16 => 16
  | Int32 | Uint32 => 32
  | Int64 | Uint64 => 64
  end.

(** The value a [kd]-typed variable holds after being assigned the
    mathematical integer [z]: conversions and [+]/[-] all truncate. *)
Definition wrap (kd : intKind) (z : Z) : Z :=
  if signed kd then wrapS (bits kd) z else wrapU (bits kd) z.

Definition inRange (kd : intKind) (z : Z) : Prop :=
  if signed kd then - 2 ^ (bits kd - 1) <= z < 2 ^ (bits kd - 1)
  else 0 <= z < 2 ^ bits kd.

Inductive floatKind := Float32 | Float64.

#[global] Instance floatKind_eq_dec : EqDecision floatKind.
Proof. solve_decision. Defined.

Definition prec (fk : floatKind) : Z :=
  match fk with Float32 => 24 | Float64 => 53 end.

Definition emax (fk : floatKind) : Z :=
  match fk with Float32 => 128 | Float64 => 1024 end.

(** IEEE 754 binary32/binary64 [+] and [-], round to nearest even. *)
Definition floatAdd (fk : floatKind) : spec_float -> spec_float -> spec_float :=
  SFadd (prec fk) (emax fk).

Definition floatSub (fk : floatKind) : spec_float -> spec_float -> spec_float :=
  SFsub (prec fk) (emax fk).

(** [float32(n)] and [float64(n)] for an integer [n]. *)
Definition floatOfInt (fk : floatKind) (n : Z) : spec_float :=
  binary_normalize (prec fk) (emax fk) n 0 false.

(** [float32(x)] for a [float64] [x]; [float64(x)] is the identity. *)
Definition floatOfFloat64 (fk : floatKind) (x : spec_float) : spec_float :=
  match fk, x with
  | Float32, S754_finite s m e => binary_round (prec Float32) (emax Float32) s m e
  | _, _ => x
  end.

End GoNum.

Import GoNum.

(** ** Data model *)

(** A value of type [interface{}]: the numeric kinds the type switches
    of [Increment]/[Decrement] name, and the others ([nil], strings). *)
Inductive any :=
| Nil
| Integer (kd : intKind) (z : Z)
| Floating (fk : floatKind) (f : spec_float)
| Str (s : string).

Record Item := { Object : any; Expiration : Z }.

(** [time.Duration] constants. *)
Definition NoExpiration : Z := -1.
Definition DefaultExpiration : Z := 0.

(** The name of a function registered with [OnEvicted]. *)
Definition hook := nat.

(** One call [f(k, v)] of an eviction hook [f]. *)
Record hookCall := { fn : hook; argKey : string; argValue : any }.

Record keyAndValue := { key : string; value : any }.

(** The struct [cache] without its janitor.  [counter] is the content of
    the [atomic.Uint32]; [onEvicted] is [None] for a nil func.  [calls]
    is ghost state: the hook calls made so far, oldest first. *)
Record cache := {
  defaultExpiration : Z;
  items : gmap string Item;
  counter : Z;
  onEvicted : option hook;
  calls : list hookCall
}.

(** What a call does: return, or panic with the runtime's message. *)
Inductive outcome (A : Type) :=
| Returns (a : A)
| Panics (msg : string).
Arguments Returns {A} a.
Arguments Panics {A} msg.

(** [error] is a message or nil. *)
Definition error := option string.

Definition Errorf1 (pre k post : string) : error :=
  Some (String.append pre (String.append k post)).

(** ** Expiration policy *)

(** [Item.Expired], at clock reading [now]. *)
Definition Expired (item : Item) (now : Z) : bool :=
  if Expiration item =? 0 then false
  else Expiration item <? now.

(** [time.Now().Add(d).UnixNano()]: the sum, truncated to [int64]. *)
Definition unixNanoAfter (now d : Z) : Z := wrapS 64 (now + d).

(** ** The store *)

Definition safeStore (c : cache) (k : string) (v : Item) : cache :=
  {| defaultExpiration := defaultExpiration c;
     items := <[k := v]> (items c);
     counter := wrapU 32 (counter c + 1);
     onEvicted := onEvicted c;
     calls := calls c |}.

Definition safeDelete (c : cache) (k : string) : cache :=
  {| defaultExpiration := defaultExpiration c;
     items := delete k (items c);
     counter := wrapU 32 (counter c - 1);
     onEvicted := onEvicted c;
     calls := calls c |}.

(** [Set] (a reserved word here, hence the underscore). *)
Definition Set_ (c : cache) (k : string) (x : any) (d now : Z) : cache :=
  let d := if d =? DefaultExpiration then defaultExpiration c else d in
  let e := if 0 <? d then unixNanoAfter now d else 0 in
  safeStore c k {| Object := x; Expiration := e |}.

Definition set (c : cache) (k : string) (x : any) (d now : Z) : cache :=
  let d := if d =? DefaultExpiration then defaultExpiration c else d in
  let e := if 0 <? d then unixNanoAfter now d else 0 in
  safeStore c k {| Object := x; Expiration := e |}.

Definition SetDefault (c : cache) (k : string) (x : any) (now : Z) : cache :=
  Set_ c k x DefaultExpiration now.

Definition get (c : cache) (k : string) (now : Z) : any * bool :=
  match items c !! k with
  | None => (Nil, false)
  | Some item =>
      if (0 <? Expiration item) && (Expiration item <? now) then (Nil, false)
      else (Object item, true)
  end.

(** [Add] reads the clock twice: [now] in [get], [now'] in [set]. *)
Definition Add (c : cache) (k : string) (x : any) (d now now' : Z) : cache * error :=
  let '(_, found) := get c k now in
  if found then (c, Errorf1 "Item " k " already exists")
  else (set c k x d now', None).

Definition Replace (c : cache) (k : string) (x : any) (d now now' : Z) : cache * error :=
  let '(_, found) := get c k now in
  if negb found then (c, Errorf1 "Item " k " doesn't exist")
  else (set c k x d now', None).

Definition Get (c : cache) (k : string) (now : Z) : any * bool :=
  match items c !! k with
  | None => (Nil, false)
  | Some item =>
      if (0 <? Expiration item) && (Expiration item <? now) then (Nil, false)
      else (Object item, true)
  end.

(** The [time.Time] result is [Some e] for [time.Unix(0, e)] and [None]
    for the zero [time.Time]. *)
Definition GetWithExpiration (c : cache) (k : string) (now : Z) : any * option Z * bool :=
  match items c !! k with
  | None => (Nil, None, false)
  | Some item =>
      if 0 <? Expiration item then
        if Expiration item <? now then (Nil, None, false)
        else (Object item, Some (Expiration item), true)
      else (Object item, None, true)
  end.

(** ** Increment and decrement *)

(** The type switch of [Increment]: [v.Object.(T) + T(n)] for the
    dynamic type [T] of the stored value, [None] in the default case. *)
Definition switchAdd (x : any) (n : Z) : option any :=
  match x with
  | Integer kd z => Some (Integer kd (wrap kd (z + wrap kd n)))
  | Floating fk f => Some (Floating fk (floatAdd fk f (floatOfInt fk n)))
  | _ => None
  end.

(** The type switch of [Decrement]: [v.Object.(T) - T(n)]. *)
Definition switchSub (x : any) (n : Z) : option any :=
  match x with
  | Integer kd z => Some (Integer kd (wrap kd (z - wrap kd n)))
  | Floating fk f => Some (Floating fk (floatSub fk f (floatOfInt fk n)))
  | _ => None
  end.

(** The type switches of [IncrementFloat] and [DecrementFloat]. *)
Definition switchAddFloat (x : any) (n : spec_float) : option any :=
  match x with
  | Floating fk f => Some (Floating fk (floatAdd fk f (floatOfFloat64 fk n)))
  | _ => None
  end.

Definition switchSubFloat (x : any) (n : spec_float) : option any :=
  match x with
  | Floating fk f => Some (Floating fk (floatSub fk f (floatOfFloat64 fk n)))
  | _ => None
  end.

Definition Increment (c : cache) (k : string) (n now : Z) : cache * error :=
  match items c !! k with
  | None => (c, Errorf1 "Item " k " not found")
  | Some item =>
      if Expired item now then (c, Errorf1 "Item " k " not found")
      else
        match switchAdd (Object item) n with
        | None => (c, Errorf1 "The value for " k " is not an integer")
        | Some x =>
            (safeStore c k {| Object := x; Expiration := Expiration item |}, None)
        end
  end.

Definition IncrementFloat (c : cache) (k : string) (n : spec_float) (now : Z)
  : cache * error :=
  match items c !! k with
  | None => (c, Errorf1 "Item " k " not found")
  | Some item =>
      if Expired item now then (c, Errorf1 "Item " k " not found")
      else
        match switchAddFloat (Object item) n with
        | None =>
            (c, Errorf1 "The value for " k " does not have type float32 or float64")
        | Some x =>
            (safeStore c k {| Object := x; Expiration := Expiration item |}, None)
        end
  end.

Definition Decrement (c : cache) (k : string) (n now : Z) : cache * error :=
  match items c !! k with
  | None => (c, Some "Item not found"%string)
  | Some item =>
      if Expired item now then (c, Some "Item not found"%string)
      else
        match switchSub (Object item) n with
        | None => (c, Errorf1 "The value for " k " is not an integer")
        | Some x =>
            (safeStore c k {| Object := x; Expiration := Expiration item |}, None)
        end
  end.

Definition DecrementFloat (c : cache) (k : string) (n : spec_float) (now : Z)
  : cache * error :=
  match items c !! k with
  | None => (c, Errorf1 "Item " k " not found")
  | Some item =>
      if Expired item now then (c, Errorf1 "Item " k " not found")
      else
        match switchSubFloat (Object item) n with
        | None =>
            (c, Errorf1 "The value for " k " does not have type float32 or float64")
        | Some x =>
            (safeStore c k {| Object := x; Expiration := Expiration item |}, None)
        end
  end.

(** Go's name of a numeric type, as the error messages spell it. *)
Definition intName (kd : intKind) : string :=
  match kd with
  | Int => "int" | Int8 => "int8" | Int16 => "int16" | Int32 => "int32"
  | Int64 => "int64" | Uint => "uint" | Uintptr => "uintptr" | Uint8 => "uint8"
  | Uint16 => "uint16" | Uint32 => "uint32" | Uint64 => "uint64"
  end.

Definition floatName (fk : floatKind) : string :=
  match fk with Float32 => "float32" | Float64 => "float64" end.

(** The typed methods differ only in the type [T] they assert and add
    in: one definition per family, indexed by [T].  [op] is [Z.add] for
    [IncrementT] and [Z.sub] for [DecrementT]. *)
Definition mutateInteger (op : Z -> Z -> Z) (kd : intKind)
    (c : cache) (k : string) (n now : Z) : cache * (Z * error) :=
  match items c !! k with
  | None => (c, (0, Errorf1 "Item " k " not found"))
  | Some item =>
      if Expired item now then (c, (0, Errorf1 "Item " k " not found"))
      else
        match Object item with
        | Integer kd' rv =>
            if decide (kd' = kd) then
              let nv := wrap kd (op rv n) in
              (safeStore c k {| Object := Integer kd nv; Expiration := Expiration item |},
               (nv, None))
            else
              (c, (0, Errorf1 "The value for " k
                              (String.append " is not an " (intName kd))))
        | _ =>
            (c, (0, Errorf1 "The value for " k
                            (String.append " is not an " (intName kd))))
        end
  end.

Definition mutateFloating (op : floatKind -> spec_float -> spec_float -> spec_float)
    (fk : floatKind) (c : cache) (k : string) (n : spec_float) (now : Z)
  : cache * (spec_float * error) :=
  match items c !! k with
  | None => (c, (S754_zero false, Errorf1 "Item " k " not found"))
  | Some item =>
      if Expired item now then (c, (S754_zero false, Errorf1 "Item " k " not found"))
      else
        match Object item with
        | Floating fk' rv =>
            if decide (fk' = fk) then
              let nv := op fk rv n in
              (safeStore c k {| Object := Floating fk nv; Expiration := Expiration item |},
               (nv, None))
            else
              (c, (S754_zero false,
                   Errorf1 "The value for " k
                           (String.append " is not an " (floatName fk))))
        | _ =>
            (c, (S754_zero false,
                 Errorf1 "The value for " k
                         (String.append " is not an " (floatName fk))))
        end
  end.

Definition IncrementInt := mutateInteger Z.add Int.
Definition IncrementInt8 := mutateInteger Z.add Int8.
Definition IncrementInt16 := mutateInteger Z.add Int16.
Definition IncrementInt32 := mutateInteger Z.add Int32.
Definition IncrementInt64 := mutateInteger Z.add Int64.
Definition IncrementUint := mutateInteger Z.add Uint.
Definition IncrementUintptr := mutateInteger Z.add Uintptr.
Definition IncrementUint8 := mutateInteger Z.add Uint8.
Definition IncrementUint16 := mutateInteger Z.add Uint16.
Definition IncrementUint32 := mutateInteger Z.add Uint32.
Definition IncrementUint64 := mutateInteger Z.add Uint64.
Definition IncrementFloat32 := mutateFloating floatAdd Float32.
Definition IncrementFloat64 := mutateFloating floatAdd Float64.

Definition DecrementInt := mutateInteger Z.sub Int.
Definition DecrementInt8 := mutateInteger Z.sub Int8.
Definition DecrementInt16 := mutateInteger Z.sub Int16.
Definition DecrementInt32 := mutateInteger Z.sub Int32.
Definition DecrementInt64 := mutateInteger Z.sub Int64.
Definition DecrementUint := mutateInteger Z.sub Uint.
Definition DecrementUintptr := mutateInteger Z.sub Uintptr.
Definition DecrementUint8 := mutateInteger Z.sub Uint8.
Definition DecrementUint16 := mutateInteger Z.sub Uint16.
Definition DecrementUint32 := mutateInteger Z.sub Uint32.
Definition DecrementUint64 := mutateInteger Z.sub Uint64.
Definition DecrementFloat32 := mutateFloating floatSub Float32.
Definition DecrementFloat64 := mutateFloating floatSub Float64.

(** ** Deletion, sweep, snapshot *)

(** [c.onEvicted(k, v)]: calling a nil func panics. *)
Definition callOnEvicted (c : cache) (k : string) (v : any) : outcome cache :=
  match onEvicted c with
  | None => Panics "invalid memory address or nil pointer dereference"
  | Some f =>
      Returns {| defaultExpiration := defaultExpiration c;
                 items := items c;
                 counter := counter c;
                 onEvicted := onEvicted c;
                 calls := calls c ++ [{| fn := f; argKey := k; argValue := v |}] |}
  end.

(** The unexported [delete] (the name is taken by the map operation). *)
Definition delete_ (c : cache) (k : string) : any * bool * cache :=
  match onEvicted c with
  | Some _ =>
      match items c !! k with
      | Some v => (Object v, true, safeDelete c k)
      | None => (Nil, false, safeDelete c k)
      end
  | None => (Nil, false, safeDelete c k)
  end.

Definition Delete (c : cache) (k : string) : outcome cache :=
  let '(v, evicted, c') := delete_ c k in
  if evicted then callOnEvicted c' k v else Returns c'.

(** [sync.Map.Range] in a single goroutine: [f] is called once for each
    entry the map held when the scan began, in the map's own order,
    until it returns false.  The callbacks of this file touch no key
    but the one they are called with, so the entry passed to [f] is the
    entry the map still holds.  [St] is what [f] closes over. *)
Fixpoint rangeOver {St : Type} (f : string -> Item -> St -> St * bool)
    (l : list (string * Item)) (s : St) : St :=
  match l with
  | [] => s
  | (k, v) :: l' =>
      let '(s', continue) := f k v s in
      if continue then rangeOver f l' s' else s'
  end.

Definition Range {St : Type} (m : gmap string Item)
    (f : string -> Item -> St -> St * bool) (s : St) : St :=
  rangeOver f (map_to_list m) s.

(** [for _, v := range evictedItems { c.onEvicted(v.key, v.value) }] *)
Fixpoint notifyAll (c : cache) (evictedItems : list keyAndValue) : outcome cache :=
  match evictedItems with
  | [] => Returns c
  | v :: rest =>
      match callOnEvicted c (key v) (value v) with
      | Returns c' => notifyAll c' rest
      | Panics msg => Panics msg
      end
  end.

(** The closure [DeleteExpired] passes to [Range]; it closes over [c],
    [evictedItems] and [now]. *)
Definition DeleteExpired_func1 (now : Z) (k : string) (v : Item)
    (st : cache * list keyAndValue) : cache * list keyAndValue * bool :=
  let '(c, evictedItems) := st in
  if (0 <? Expiration v) && (Expiration v <? now) then
    let '(ov, evicted, c') := delete_ c k in
    if evicted
    then (c', evictedItems ++ [{| key := k; value := ov |}], true)
    else (c', evictedItems, true)
  else (c, evictedItems, true).

Definition DeleteExpired (c : cache) (now : Z) : outcome cache :=
  let '(c1, evictedItems) :=
    Range (items c) (DeleteExpired_func1 now) (c, []) in
  notifyAll c1 evictedItems.

Definition OnEvicted (c : cache) (f : option hook) : cache :=
  {| defaultExpiration := defaultExpiration c;
     items := items c;
     counter := counter c;
     onEvicted := f;
     calls := calls c |}.

(** A value of type [map[string]Item]: nil, or a map made by [make]. *)
Inductive gomap :=
| nilMap
| madeMap (m : gmap string Item).

(** The entries a reader of the map sees; a nil map reads as empty. *)
Definition entries (m : gomap) : gmap string Item :=
  match m with nilMap => ∅ | madeMap g => g end.

Definition nilMapPanic : string := "assignment to entry in nil map".

(** [m[k] = v] *)
Definition mapassign (m : gomap) (k : string) (v : Item) : outcome gomap :=
  match m with
  | nilMap => Panics nilMapPanic
  | madeMap g => Returns (madeMap (<[k := v]> g))
  end.

(** The closure [Items] passes to [Range]; it closes over [m] and
    [now].  A panic in it ends the scan. *)
Definition Items_func1 (now : Z) (k : string) (v : Item) (m : outcome gomap)
  : outcome gomap * bool :=
  match m with
  | Panics msg => (Panics msg, false)
  | Returns m =>
      if (0 <? Expiration v) && (Expiration v <? now) then (Returns m, true)
      else
        match mapassign m k v with
        | Returns m' => (Returns m', true)
        | Panics msg => (Panics msg, false)
        end
  end.

(** [Items] declares [var m map[string]Item] and never makes it.  The
    cache itself is only read. *)
Definition Items (c : cache) (now : Z) : outcome gomap :=
  Range (items c) (Items_func1 now) (Returns nilMap).

Definition ItemCount (c : cache) : Z := counter c.

(** The closure [Flush] names [delete]. *)
Definition Flush_func1 (k : string) (v : Item) (c : cache) : cache * bool :=
  (safeDelete c k, true).

Definition Flush (c : cache) : cache :=
  Range (items c) Flush_func1 c.

Definition newCache (de : Z) (m : gmap string Item) : cache :=
  let de := if de =? 0 then -1 else de in
  {| defaultExpiration := de;
     items := m;
     counter := 0;
     onEvicted := None;
     calls := [] |}.

(** [New], without the janitor goroutine. *)
Definition New (de : Z) : cache := newCache de ∅.

(** [NewFrom], without the janitor goroutine: the cache starts on the
    map it is given. *)
Definition NewFrom (de : Z) (m : gmap string Item) : cache := newCache de m.

(** ** Specification vocabulary *)

(** An entry is expired at [now] when its expiration is set and [now]
    is strictly later: the test [Get], [get], [Items] and
    [DeleteExpired] all inline. *)
Definition expiredAt (now : Z) (item : Item) : Prop :=
  0 < Expiration item < now.

(** A store that a 32-bit counter can describe. *)
Definition counterOk (c : cache) : Prop := 0 <= counter c < 2 ^ 32.

(** The counter is the number of keys. *)
Definition exactCount (c : cache) : Prop :=
  counter c = Z.of_nat (size (items c)).

(** The duration [Set] works with once [DefaultExpiration] has been
    replaced by the store's default. *)
Definition effective (c : cache) (d : Z) : Z :=
  if d =? DefaultExpiration then defaultExpiration c else d.

(** The value is one of the numeric kinds of the type switches. *)
Definition numeric (x : any) : Prop :=
  match x with Integer _ _ | Floating _ _ => True | _ => False end.

(** The store a call that returns leaves behind ([c] if it panics). *)
Definition returned (c : cache) (o : outcome cache) : cache :=
  match o with Returns c' => c' | Panics _ => c end.

(** A store handed to [NewFrom] with an entry whose expiration is
    negative. *)
Definition negativeEntry : cache :=
  NewFrom 0 {[ "n" := {| Object := Integer Int64 5; Expiration := -7 |} ]}.

#[global] Instance expiredAt_dec (now : Z) (item : Item) : Decision (expiredAt now item).
Proof. unfold expiredAt. apply _. Defined.

(** The test the scans inline, as a function. *)
Definition expiredb (now : Z) (item : Item) : bool :=
  (0 <? Expiration item) && (Expiration item <? now).

(** What a deleting scan leaves of the cache: each visited entry that
    passes [P] goes through [safeDelete]. *)
Fixpoint deleteWhere (P : Item -> bool) (l : list (string * Item)) (c : cache) : cache :=
  match l with
  | [] => c
  | (k, v) :: l' => deleteWhere P l' (if P v then safeDelete c k else c)
  end.

(** [c'] is [c] with the entry at [k] rewritten to hold [f] of its old
    value under its old expiration, through [safeStore]. *)
Definition rewrites (c c' : cache) (k : string) (f : any -> option any) : Prop :=
  exists item x',
    items c !! k = Some item /\
    f (Object item) = Some x' /\
    c' = safeStore c k {| Object := x'; Expiration := Expiration item |}.


(** The value a typed method for integer type [kd] writes. *)
Definition typedInt (op : Z -> Z -> Z) (kd : intKind) (n : Z) (x : any) : option any :=
  match x with
  | Integer kd' rv =>
      if decide (kd' = kd) then Some (Integer kd (wrap kd (op rv n))) else None
  | _ => None
  end.

(** The value a typed method for floating-point type [fk] writes. *)
Definition typedFloat (op : floatKind -> spec_float -> spec_float -> spec_float)
    (fk : floatKind) (n : spec_float) (x : any) : option any :=
  match x with
  | Floating fk' rv =>
      if decide (fk' = fk) then Some (Floating fk (op fk rv n)) else None
  | _ => None
  end.

(** The record of [f(k, v)] for every pair of [l], in order. *)
Definition callsOf (f : hook) (l : list keyAndValue) : list hookCall :=
  map (fun v => {| fn := f; argKey := key v; argValue := value v |}) l.

(** [IncrementInt64(k, n)] at time [now] for each [(n, now)] of [steps]
    in turn, stopping at the first error; the flag tells whether every
    call succeeded. *)
Fixpoint incrementEach (c : cache) (k : string) (steps : list (Z * Z)) : cache * bool :=
  match steps with
  | [] => (c, true)
  | (n, now) :: rest =>
      let '(c', (_, err)) := IncrementInt64 c k n now in
      match err with
      | None => incrementEach c' k rest
      | Some _ => (c', false)
      end
  end.

(** ** Sample stores *)

(** A store with one entry that expires at 110 and one that never does. *)
Definition sampleStore : cache :=
  Set_ (Set_ (New 0) "a" (Integer Int64 5) 10 100) "b" (Str "x") NoExpiration 100.

(** [sampleStore] with hook number 7 registered. *)
Definition hookedStore : cache := OnEvicted sampleStore (Some 7%nat).

(** A store holding one entry that never expires. *)
Definition oneEntry : cache := Set_ (New 0) "a" (Integer Int 1) NoExpiration 100.


(** * Arithmetic facts *)

Lemma pow2_half (w : Z) : 0 < w -> 2 ^ w = 2 * 2 ^ (w - 1).
Proof.
  intros Hw. replace w with (Z.succ (w - 1)) at 1 by lia.
  rewrite Z.pow_succ_r by lia. reflexivity.
Qed.

Lemma wrapU_small (w z : Z) : 0 <= z < 2 ^ w -> wrapU w z = z.
Proof. intros H. unfold wrapU. apply Z.mod_small. exact H. Qed.

Lemma wrapS_small (w z : Z) :
  0 < w -> - 2 ^ (w - 1) <= z < 2 ^ (w - 1) -> wrapS w z = z.
Proof.
  intros Hw H. unfold wrapS. rewrite (pow2_half w Hw).
  rewrite Z.mod_small by lia. lia.
Qed.

Lemma wrapU_add_sub (w v n : Z) : wrapU w (wrapU w (v + n) - n) = wrapU w v.
Proof.
  unfold wrapU. rewrite Zminus_mod_idemp_l. f_equal. lia.
Qed.

Lemma wrapS_add_sub (w v n : Z) : wrapS w (wrapS w (v + n) - n) = wrapS w v.
Proof.
  unfold wrapS. f_equal.
  replace ((v + n + 2 ^ (w - 1)) mod 2 ^ w - 2 ^ (w - 1) - n + 2 ^ (w - 1))
    with ((v + n + 2 ^ (w - 1)) mod 2 ^ w - n) by lia.
  rewrite Zminus_mod_idemp_l. f_equal. lia.
Qed.

Lemma bits_pos (kd : intKind) : 0 < bits kd.
Proof. destruct kd; unfold bits, uintSize; lia. Qed.

Lemma wrap_inRange (kd : intKind) (z : Z) : inRange kd z -> wrap kd z = z.
Proof.
  unfold inRange, wrap. destruct (signed kd); intros H.
  - apply wrapS_small; [apply bits_pos | exact H].
  - apply wrapU_small; exact H.
Qed.

Lemma wrap_add_sub (kd : intKind) (v n : Z) :
  wrap kd (wrap kd (v + n) - n) = wrap kd v.
Proof.
  unfold wrap. destruct (signed kd);
    [apply wrapS_add_sub | apply wrapU_add_sub].
Qed.

(** * Reads: [Get], [get] and [Item.Expired] *)

Lemma expired_test (now : Z) (item : Item) :
  (0 <? Expiration item) && (Expiration item <? now) = true <-> expiredAt now item.
Proof.
  unfold expiredAt. rewrite andb_true_iff, !Z.ltb_lt. tauto.
Qed.

Lemma expired_test_false (now : Z) (item : Item) :
  (0 <? Expiration item) && (Expiration item <? now) = false <-> ~ expiredAt now item.
Proof.
  rewrite <- expired_test. destruct (_ && _); split; intros H; congruence.
Qed.

Lemma get_eq_Get (c : cache) (k : string) (now : Z) : get c k now = Get c k now.
Proof. reflexivity. Qed.

Lemma set_eq_Set (c : cache) (k : string) (x : any) (d now : Z) :
  set c k x d now = Set_ c k x d now.
Proof. reflexivity. Qed.

Lemma get_found (c : cache) (k : string) (now : Z) :
  snd (get c k now) = true <->
  exists item, items c !! k = Some item /\ ~ expiredAt now item.
Proof.
  unfold get. destruct (items c !! k) as [item|] eqn:Hk.
  - destruct (_ && _) eqn:Ht; simpl.
    + apply expired_test in Ht. split; [discriminate|].
      intros (item' & Heq & Hlive). inversion Heq; subst. contradiction.
    + apply expired_test_false in Ht. split; [eauto | reflexivity].
  - simpl. split; [discriminate|]. intros (item' & Heq & _). discriminate.
Qed.

(** C3 — Expiration is a strict comparison: for an entry with a set
    expiry timestamp [E], [Get] reports found=false at every query time
    strictly greater than [E] and returns the stored value with
    found=true at every query time less than or equal to [E], so the
    entry is still live at the instant [E] itself; an entry with no
    expiration set is found at every time, and [Expired] never holds of
    it. *)
Theorem Get_expiration_strict (c : cache) (k : string) (x : any) (E : Z) :
  items c !! k = Some {| Object := x; Expiration := E |} ->
  (0 < E ->
     (forall now, E < now -> Get c k now = (Nil, false)) /\
     (forall now, now <= E -> Get c k now = (x, true)) /\
     (forall now, Expired {| Object := x; Expiration := E |} now = true <-> E < now)) /\
  (E <= 0 -> forall now, Get c k now = (x, true)) /\
  (E = 0 -> forall now, Expired {| Object := x; Expiration := E |} now = false).
Proof.
  intros Hk. split; [|split].
  - intros HE. split; [|split].
    + intros now Hlt. unfold Get. rewrite Hk. simpl.
      replace (0 <? E) with true by (symmetry; apply Z.ltb_lt; lia).
      replace (E <? now) with true by (symmetry; apply Z.ltb_lt; lia).
      reflexivity.
    + intros now Hle. unfold Get. rewrite Hk. simpl.
      replace (E <? now) with false by (symmetry; apply Z.ltb_ge; lia).
      rewrite andb_false_r. reflexivity.
    + intros now. unfold Expired. simpl.
      replace (E =? 0) with false by (symmetry; apply Z.eqb_neq; lia).
      apply Z.ltb_lt.
  - intros HE now. unfold Get. rewrite Hk. simpl.
    replace (0 <? E) with false by (symmetry; apply Z.ltb_ge; lia).
    reflexivity.
  - intros -> now. reflexivity.
Qed.

Lemma Get_expiration_strict_witness :
  Get sampleStore "a" 110 = (Integer Int64 5, true) /\
  Get sampleStore "a" 111 = (Nil, false) /\
  Get sampleStore "b" 1000000 = (Str "x", true).
Proof.
  pose proof (Get_expiration_strict sampleStore "a" (Integer Int64 5) 110
                eq_refl) as [Ha _].
  pose proof (Get_expiration_strict sampleStore "b" (Str "x") 0
                eq_refl) as (_ & Hb & _).
  destruct (Ha ltac:(lia)) as (Hgt & Hle & _).
  split; [apply Hle; lia | split; [apply Hgt; lia | apply Hb; lia]].
Defined.

(** * [Add] *)

(** C5 — [Add(k, x, d)] fails with the already-exists error exactly
    when the store holds an entry for [k] that is not expired at the
    time of the check; when [k] is absent or its entry is expired,
    [Add] succeeds and leaves the store as [Set(k, x, d)] would. *)
Theorem Add_fails_iff_live (c : cache) (k : string) (x : any) (d now now' : Z) :
  ((exists item, items c !! k = Some item /\ ~ expiredAt now item) ->
   Add c k x d now now' = (c, Some ("Item " +:+ k +:+ " already exists"))) /\
  ((items c !! k = None \/
    exists item, items c !! k = Some item /\ expiredAt now item) ->
   Add c k x d now now' = (Set_ c k x d now', None)) /\
  (snd (Add c k x d now now') <> None <->
   exists item, items c !! k = Some item /\ ~ expiredAt now item).
Proof.
  pose proof (get_found c k now) as Hfound.
  unfold Add. destruct (get c k now) as [v found] eqn:Hget. simpl in Hfound.
  destruct found.
  - assert (Hlive : exists item, items c !! k = Some item /\ ~ expiredAt now item)
      by (apply Hfound; reflexivity).
    split; [intros _; reflexivity|]. split.
    + destruct Hlive as (item & Hk & Hlive).
      intros [Hnone | (item' & Hk' & Hexp)]; [congruence|].
      rewrite Hk in Hk'. inversion Hk'; subst. contradiction.
    + simpl. split; [intros _; exact Hlive | discriminate].
  - assert (Hdead : ~ exists item, items c !! k = Some item /\ ~ expiredAt now item)
      by (intros H; apply Hfound in H; discriminate).
    split; [intros H; contradiction|]. split.
    + intros _. reflexivity.
    + simpl. split; [congruence | intros H; contradiction].
Qed.

Lemma Add_fails_iff_live_witness :
  Add sampleStore "a" (Str "y") 5 110 110
    = (sampleStore, Some "Item a already exists"%string) /\
  Add sampleStore "a" (Str "y") 5 111 111
    = (Set_ sampleStore "a" (Str "y") 5 111, None) /\
  Add sampleStore "z" (Str "y") 5 111 111
    = (Set_ sampleStore "z" (Str "y") 5 111, None).
Proof.
  split; [|split].
  - apply (proj1 (Add_fails_iff_live sampleStore "a" (Str "y") 5 110 110)).
    exists {| Object := Integer Int64 5; Expiration := 110 |}.
    split; [reflexivity | unfold expiredAt; simpl; lia].
  - apply (proj1 (proj2 (Add_fails_iff_live sampleStore "a" (Str "y") 5 111 111))).
    right. exists {| Object := Integer Int64 5; Expiration := 110 |}.
    split; [reflexivity | unfold expiredAt; simpl; lia].
  - apply (proj1 (proj2 (Add_fails_iff_live sampleStore "z" (Str "y") 5 111 111))).
    left. reflexivity.
Defined.

(** * Increment and decrement: what a successful call does *)

Ltac mutation_cases Hk :=
  match goal with
  | |- context [items ?c !! ?k] =>
      destruct (items c !! k) as [item|] eqn:Hk; [|intros; discriminate]
  end;
  match goal with
  | |- context [Expired ?item ?now] =>
      destruct (Expired item now); [intros; discriminate|]
  end.

Lemma Increment_rewrites (c c' : cache) (k : string) (n now : Z) :
  Increment c k n now = (c', None) -> rewrites c c' k (fun x => switchAdd x n).
Proof.
  unfold Increment, rewrites. mutation_cases Hk.
  destruct (switchAdd (Object item) n) as [x'|] eqn:Hx; [|intros; discriminate].
  intros [= <-]. exists item, x'. auto.
Qed.

Lemma Decrement_rewrites (c c' : cache) (k : string) (n now : Z) :
  Decrement c k n now = (c', None) -> rewrites c c' k (fun x => switchSub x n).
Proof.
  unfold Decrement, rewrites. mutation_cases Hk.
  destruct (switchSub (Object item) n) as [x'|] eqn:Hx; [|intros; discriminate].
  intros [= <-]. exists item, x'. auto.
Qed.

Lemma IncrementFloat_rewrites (c c' : cache) (k : string) (n : spec_float) (now : Z) :
  IncrementFloat c k n now = (c', None) ->
  rewrites c c' k (fun x => switchAddFloat x n).
Proof.
  unfold IncrementFloat, rewrites. mutation_cases Hk.
  destruct (switchAddFloat (Object item) n) as [x'|] eqn:Hx; [|intros; discriminate].
  intros [= <-]. exists item, x'. auto.
Qed.

Lemma DecrementFloat_rewrites (c c' : cache) (k : string) (n : spec_float) (now : Z) :
  DecrementFloat c k n now = (c', None) ->
  rewrites c c' k (fun x => switchSubFloat x n).
Proof.
  unfold DecrementFloat, rewrites. mutation_cases Hk.
  destruct (switchSubFloat (Object item) n) as [x'|] eqn:Hx; [|intros; discriminate].
  intros [= <-]. exists item, x'. auto.
Qed.

Lemma mutateInteger_rewrites (op : Z -> Z -> Z) (kd : intKind)
    (c c' : cache) (k : string) (n now nv : Z) :
  mutateInteger op kd c k n now = (c', (nv, None)) ->
  rewrites c c' k (typedInt op kd n) /\
  items c' !! k = Some {| Object := Integer kd nv;
                          Expiration := from_option Expiration 0 (items c !! k) |}.
Proof.
  unfold mutateInteger, rewrites. mutation_cases Hk.
  destruct (Object item) as [|kd' rv|fk f|s] eqn:Hobj; try (intros; discriminate).
  destruct (decide (kd' = kd)) as [->|Hne]; [|intros; discriminate].
  intros [= <- <-]. split.
  - exists item, (Integer kd (wrap kd (op rv n))). rewrite Hobj. simpl.
    destruct (decide (kd = kd)); [auto | contradiction].
  - simpl. apply lookup_insert_eq.
Qed.

Lemma mutateFloating_rewrites
    (op : floatKind -> spec_float -> spec_float -> spec_float) (fk : floatKind)
    (c c' : cache) (k : string) (n : spec_float) (now : Z) (nv : spec_float) :
  mutateFloating op fk c k n now = (c', (nv, None)) ->
  rewrites c c' k (typedFloat op fk n) /\
  items c' !! k = Some {| Object := Floating fk nv;
                          Expiration := from_option Expiration 0 (items c !! k) |}.
Proof.
  unfold mutateFloating, rewrites. mutation_cases Hk.
  destruct (Object item) as [|kd' rv|fk' rv|s] eqn:Hobj; try (intros; discriminate).
  destruct (decide (fk' = fk)) as [->|Hne]; [|intros; discriminate].
  intros [= <- <-]. split.
  - exists item, (Floating fk (op fk rv n)). rewrite Hobj. simpl.
    destruct (decide (fk = fk)); [auto | contradiction].
  - simpl. apply lookup_insert_eq.
Qed.

(** What [rewrites] says about the entries: the expiration at [k] is
    the old one and every other key is untouched. *)
Lemma rewrites_frame (c c' : cache) (k : string) (f : any -> option any) :
  rewrites c c' k f ->
  (exists item x',
      items c !! k = Some item /\ f (Object item) = Some x' /\
      items c' !! k = Some {| Object := x'; Expiration := Expiration item |}) /\
  (forall k', k' <> k -> items c' !! k' = items c !! k') /\
  dom (items c') = dom (items c) /\
  defaultExpiration c' = defaultExpiration c /\
  onEvicted c' = onEvicted c /\
  calls c' = calls c /\
  counter c' = wrapU 32 (counter c + 1).
Proof.
  intros (item & x' & Hk & Hf & ->). simpl. repeat split.
  - exists item, x'. rewrite lookup_insert_eq. auto.
  - intros k' Hne. apply lookup_insert_ne. congruence.
  - apply dom_insert_lookup_L. eauto.
Qed.

Lemma wrap_add_wrap (kd : intKind) (z n : Z) :
  wrap kd (z + wrap kd n) = wrap kd (z + n).
Proof.
  unfold wrap, wrapS, wrapU. destruct (signed kd).
  - f_equal.
    replace (z + ((n + 2 ^ (bits kd - 1)) mod 2 ^ bits kd - 2 ^ (bits kd - 1))
             + 2 ^ (bits kd - 1))
      with (z + (n + 2 ^ (bits kd - 1)) mod 2 ^ bits kd) by lia.
    rewrite Zplus_mod_idemp_r. f_equal. lia.
  - apply Zplus_mod_idemp_r.
Qed.

Lemma wrap_sub_wrap (kd : intKind) (z n : Z) :
  wrap kd (z - wrap kd n) = wrap kd (z - n).
Proof.
  unfold wrap, wrapS, wrapU. destruct (signed kd).
  - f_equal.
    replace (z - ((n + 2 ^ (bits kd - 1)) mod 2 ^ bits kd - 2 ^ (bits kd - 1))
             + 2 ^ (bits kd - 1))
      with (z + 2 * 2 ^ (bits kd - 1) - (n + 2 ^ (bits kd - 1)) mod 2 ^ bits kd)
      by lia.
    rewrite Zminus_mod_idemp_r. f_equal. lia.
  - apply Zminus_mod_idemp_r.
Qed.




(** * Increment then decrement *)

Lemma mutateInteger_ok (op : Z -> Z -> Z) (kd : intKind) (c : cache) (k : string)
    (n now : Z) (item : Item) (rv : Z) :
  items c !! k = Some item ->
  Expired item now = false ->
  Object item = Integer kd rv ->
  mutateInteger op kd c k n now
    = (safeStore c k {| Object := Integer kd (wrap kd (op rv n));
                        Expiration := Expiration item |},
       (wrap kd (op rv n), None)).
Proof.
  intros Hk Hlive Hobj. unfold mutateInteger. rewrite Hk, Hlive, Hobj.
  destruct (decide (kd = kd)); [reflexivity | contradiction].
Qed.

(** The round trip needs no overflow condition: both steps wrap. *)
Lemma add_sub_roundtrip (kd : intKind) (c : cache) (k : string) (v e n now now' : Z) :
  items c !! k = Some {| Object := Integer kd v; Expiration := e |} ->
  Expired {| Object := Integer kd v; Expiration := e |} now = false ->
  Expired {| Object := Integer kd v; Expiration := e |} now' = false ->
  inRange kd v ->
  exists c1 c2,
    mutateInteger Z.add kd c k n now = (c1, (wrap kd (v + n), None)) /\
    mutateInteger Z.sub kd c1 k n now' = (c2, (v, None)) /\
    items c2 = items c.
Proof.
  intros Hk Hlive Hlive' Hv.
  eexists. eexists. split; [|split].
  - apply (mutateInteger_ok Z.add kd c k n now _ v Hk Hlive eq_refl).
  - rewrite (mutateInteger_ok Z.sub kd _ k n now'
               {| Object := Integer kd (wrap kd (v + n)); Expiration := e |}
               (wrap kd (v + n))).
    + rewrite wrap_add_sub, (wrap_inRange kd v Hv). reflexivity.
    + simpl. apply lookup_insert_eq.
    + exact Hlive'.
    + reflexivity.
  - unfold safeStore; cbn [items]. rewrite insert_insert_eq.
    apply insert_id. exact Hk.
Qed.

(** C7 — For a key [k] holding an int64 value [v] in an entry that is
    live at both calls, and a delta [n] with [n] and [v + n] in the
    range of int64, [IncrementInt64(k, n)] returns [v + n] and the
    [DecrementInt64(k, n)] that follows returns [v] and leaves the
    entry, and the whole map, as it was before the two calls. *)
Theorem IncrementInt64_DecrementInt64_roundtrip
    (c : cache) (k : string) (v e n now now' : Z) :
  items c !! k = Some {| Object := Integer Int64 v; Expiration := e |} ->
  Expired {| Object := Integer Int64 v; Expiration := e |} now = false ->
  Expired {| Object := Integer Int64 v; Expiration := e |} now' = false ->
  inRange Int64 v -> inRange Int64 n -> inRange Int64 (v + n) ->
  exists c1 c2,
    IncrementInt64 c k n now = (c1, (v + n, None)) /\
    DecrementInt64 c1 k n now' = (c2, (v, None)) /\
    items c2 !! k = Some {| Object := Integer Int64 v; Expiration := e |} /\
    items c2 = items c.
Proof.
  intros Hk Hlive Hlive' Hv Hn Hvn.
  destruct (add_sub_roundtrip Int64 c k v e n now now' Hk Hlive Hlive' Hv)
    as (c1 & c2 & Hinc & Hdec & Hitems).
  rewrite (wrap_inRange Int64 (v + n) Hvn) in Hinc.
  exists c1, c2. unfold IncrementInt64, DecrementInt64.
  repeat split; try assumption. rewrite Hitems. exact Hk.
Qed.

Lemma IncrementInt64_DecrementInt64_roundtrip_witness :
  exists c1 c2,
    IncrementInt64 sampleStore "a" 7 105 = (c1, (5 + 7, None)) /\
    DecrementInt64 c1 "a" 7 106 = (c2, (5, None)) /\
    items c2 !! "a" = Some {| Object := Integer Int64 5; Expiration := 110 |} /\
    items c2 = items sampleStore.
Proof.
  apply (IncrementInt64_DecrementInt64_roundtrip sampleStore "a" 5 110 7 105 106).
  - reflexivity.
  - reflexivity.
  - reflexivity.
  - unfold inRange; simpl; lia.
  - unfold inRange; simpl; lia.
  - unfold inRange; simpl; lia.
Defined.

(** * Scans of the map *)

Lemma delete_cache (c : cache) (k : string) : snd (delete_ c k) = safeDelete c k.
Proof.
  unfold delete_. destruct (onEvicted c); [destruct (items c !! k)|]; reflexivity.
Qed.

Lemma delete_evicted (c : cache) (k : string) :
  delete_ c k =
  match onEvicted c, items c !! k with
  | Some _, Some v => (Object v, true, safeDelete c k)
  | _, _ => (Nil, false, safeDelete c k)
  end.
Proof.
  unfold delete_. destruct (onEvicted c); [destruct (items c !! k)|]; reflexivity.
Qed.

Lemma Flush_scan (l : list (string * Item)) (c : cache) :
  rangeOver Flush_func1 l c = deleteWhere (fun _ => true) l c.
Proof.
  revert c. induction l as [|[k v] l IH]; intros c; simpl; [reflexivity|].
  apply IH.
Qed.

Lemma DeleteExpired_scan (now : Z) (l : list (string * Item)) (c : cache)
    (ev : list keyAndValue) :
  fst (rangeOver (DeleteExpired_func1 now) l (c, ev)) = deleteWhere (expiredb now) l c.
Proof.
  revert c ev. induction l as [|[k v] l IH]; intros c ev; simpl; [reflexivity|].
  unfold expiredb. destruct ((0 <? Expiration v) && (Expiration v <? now)).
  - pose proof (delete_cache c k) as Hc.
    destruct (delete_ c k) as [[ov evicted] c']. simpl in Hc. subst c'.
    destruct evicted; apply IH.
  - apply IH.
Qed.

Section DeleteWhere.

Variable P : Item -> bool.

Lemma deleteWhere_fields (l : list (string * Item)) (c : cache) :
  defaultExpiration (deleteWhere P l c) = defaultExpiration c /\
  onEvicted (deleteWhere P l c) = onEvicted c /\
  calls (deleteWhere P l c) = calls c.
Proof.
  revert c. induction l as [|[k v] l IH]; intros c; simpl; [auto|].
  destruct (IH (if P v then safeDelete c k else c)) as (H1 & H2 & H3).
  rewrite H1, H2, H3. destruct (P v); auto.
Qed.

Lemma deleteWhere_lookup (l : list (string * Item)) (c : cache) (k : string) (item : Item) :
  items (deleteWhere P l c) !! k = Some item <->
  items c !! k = Some item /\ ~ exists v, (k, v) ∈ l /\ P v = true.
Proof.
  revert c. induction l as [|[k0 v0] l IH]; intros c; simpl.
  - split; [intros H; split; [exact H|] | tauto].
    intros (v & Hin & _). inversion Hin.
  - rewrite IH. destruct (P v0) eqn:HP.
    + simpl. destruct (decide (k = k0)) as [->|Hne].
      * rewrite lookup_delete_eq. split; [intros [H _]; discriminate|].
        intros [_ Hno]. exfalso. apply Hno. exists v0. split; [left | exact HP].
      * rewrite lookup_delete_ne by congruence.
        split; intros [Hk Hno]; (split; [exact Hk|]); intros (v & Hin & Hv);
          apply Hno; exists v; (split; [|exact Hv]).
        -- apply elem_of_cons in Hin as [Heq | Hin]; [congruence | exact Hin].
        -- right. exact Hin.
    + split; intros [Hk Hno]; (split; [exact Hk|]); intros (v & Hin & Hv);
        apply Hno; exists v; (split; [|exact Hv]).
      * apply elem_of_cons in Hin as [Heq | Hin]; [congruence | exact Hin].
      * right. exact Hin.
Qed.

Lemma deleteWhere_counter (l : list (string * Item)) (c : cache) :
  wrapU 32 (counter (deleteWhere P l c))
  = wrapU 32 (counter c - Z.of_nat (length (filter (fun kv => P kv.2) l))).
Proof.
  revert c. induction l as [|[k v] l IH]; intros c; simpl.
  - f_equal. lia.
  - rewrite IH. rewrite filter_cons. simpl. destruct (P v) eqn:HP; simpl.
    + unfold wrapU. rewrite Zminus_mod_idemp_l. f_equal. lia.
    + reflexivity.
Qed.

End DeleteWhere.

(** * The eviction hook *)

Lemma notifyAll_registered (f : hook) (l : list keyAndValue) (c : cache) :
  onEvicted c = Some f ->
  exists c',
    notifyAll c l = Returns c' /\
    defaultExpiration c' = defaultExpiration c /\
    items c' = items c /\
    counter c' = counter c /\
    onEvicted c' = onEvicted c /\
    calls c' = calls c ++ callsOf f l.
Proof.
  revert c. induction l as [|v l IH]; intros c Hf; simpl.
  - exists c. rewrite app_nil_r. repeat split; reflexivity.
  - unfold callOnEvicted. destruct (onEvicted c) as [g|] eqn:Hg; [|discriminate].
    injection Hf as ->.
    match goal with |- context [notifyAll ?c1 l] =>
      destruct (IH c1) as (c' & Hrun & Hd & Hi & Hc & Ho & Hcalls); [reflexivity|]
    end.
    exists c'. rewrite Hrun, Hd, Hi, Hc, Ho, Hcalls. simpl.
    rewrite <- app_assoc. repeat split; reflexivity.
Qed.

Lemma Delete_returns (c : cache) (k : string) :
  exists c',
    Delete c k = Returns c' /\
    defaultExpiration c' = defaultExpiration c /\
    items c' = delete k (items c) /\
    counter c' = wrapU 32 (counter c - 1) /\
    onEvicted c' = onEvicted c /\
    calls c' = calls c ++
               match onEvicted c, items c !! k with
               | Some f, Some item =>
                   [{| fn := f; argKey := k; argValue := Object item |}]
               | _, _ => []
               end.
Proof.
  unfold Delete. rewrite delete_evicted.
  destruct (onEvicted c) as [f|] eqn:Hf; [destruct (items c !! k) as [item|] eqn:Hk|].
  - unfold callOnEvicted. simpl. rewrite Hf. eexists. split; [reflexivity|].
    simpl. repeat split; first [reflexivity | congruence].
  - eexists. split; [reflexivity|]. simpl. rewrite app_nil_r. repeat split; first [reflexivity | congruence].
  - eexists. split; [reflexivity|]. simpl. rewrite app_nil_r. repeat split; first [reflexivity | congruence].
Qed.

(** The pairs a sweep hands to the hook: the expired entries of the
    scan, in scan order, when a hook is registered. *)
Lemma DeleteExpired_evicted (now : Z) (l : list (string * Item)) (c : cache)
    (ev : list keyAndValue) :
  NoDup l.*1 ->
  (forall k v, (k, v) ∈ l -> items c !! k = Some v) ->
  snd (rangeOver (DeleteExpired_func1 now) l (c, ev))
  = match onEvicted c with
    | Some _ =>
        ev ++ map (fun kv => {| key := kv.1; value := Object kv.2 |})
                  (filter (fun kv => expiredb now kv.2) l)
    | None => ev
    end.
Proof.
  revert c ev. induction l as [|[k v] l IH]; intros c ev Hnd Hin; simpl.
  - destruct (onEvicted c); [rewrite app_nil_r|]; reflexivity.
  - apply NoDup_cons in Hnd as [Hk Hnd].
    assert (Hrest : forall c', items c' = items c \/ items c' = delete k (items c) ->
              forall k' v', (k', v') ∈ l -> items c' !! k' = Some v').
    { intros c' Hc' k' v' Hin'.
      assert (k' <> k).
      { intros ->. apply Hk. apply list_elem_of_fmap. exists (k, v'). auto. }
      destruct Hc' as [-> | ->]; [|rewrite lookup_delete_ne by congruence];
        apply Hin; right; exact Hin'. }
    change ((0 <? Expiration v) && (Expiration v <? now)) with (expiredb now v).
    destruct (expiredb now v) eqn:Hexp.
    + rewrite filter_cons_True by (simpl; rewrite Hexp; exact I).
      rewrite delete_evicted. rewrite (Hin k v) by left.
      destruct (onEvicted c) as [f|] eqn:Hf.
      * rewrite IH; [|exact Hnd|apply Hrest; right; reflexivity].
        simpl. rewrite Hf. rewrite <- app_assoc. reflexivity.
      * rewrite IH; [|exact Hnd|apply Hrest; right; reflexivity].
        simpl. rewrite Hf. reflexivity.
    + rewrite filter_cons_False by (simpl; rewrite Hexp; exact id).
      rewrite IH; [|exact Hnd|apply Hrest; left; reflexivity]. reflexivity.
Qed.

Lemma DeleteExpired_returns (c : cache) (now : Z) :
  exists c',
    DeleteExpired c now = Returns c' /\
    defaultExpiration c' = defaultExpiration c /\
    items c' = items (deleteWhere (expiredb now) (map_to_list (items c)) c) /\
    counter c' = counter (deleteWhere (expiredb now) (map_to_list (items c)) c) /\
    onEvicted c' = onEvicted c /\
    calls c' = calls c ++
               match onEvicted c with
               | Some f =>
                   callsOf f (map (fun kv => {| key := kv.1; value := Object kv.2 |})
                                  (filter (fun kv => expiredb now kv.2)
                                          (map_to_list (items c))))
               | None => []
               end.
Proof.
  unfold DeleteExpired, Range.
  pose proof (DeleteExpired_scan now (map_to_list (items c)) c []) as Hc.
  pose proof (DeleteExpired_evicted now (map_to_list (items c)) c []
                (NoDup_fst_map_to_list _)
                (fun k v H => proj1 (elem_of_map_to_list _ _ _) H)) as Hev.
  destruct (rangeOver _ _ _) as [c1 ev]. simpl in Hc, Hev. subst c1.
  destruct (deleteWhere_fields (expiredb now) (map_to_list (items c)) c)
    as (Hd & Ho & Hcalls).
  destruct (onEvicted c) as [f|] eqn:Hf.
  - destruct (notifyAll_registered f ev _ Ho)
      as (c' & Hrun & Hd' & Hi' & Hc' & Ho' & Hcalls').
    exists c'. rewrite Hrun, Hd', Hi', Hc', Ho', Hcalls', Hd, Ho, Hcalls, Hev.
    simpl. repeat split; first [reflexivity | congruence].
  - subst ev. simpl. eexists. split; [reflexivity|].
    rewrite Hd, Ho, Hcalls, app_nil_r. repeat split; first [reflexivity | congruence].
Qed.

Lemma DeleteExpired_lookup (c c' : cache) (now : Z) (k : string) (item : Item) :
  DeleteExpired c now = Returns c' ->
  (items c' !! k = Some item <-> items c !! k = Some item /\ ~ expiredAt now item).
Proof.
  intros Hrun.
  destruct (DeleteExpired_returns c now) as (c2 & Hrun2 & _ & Hitems & _).
  rewrite Hrun in Hrun2. injection Hrun2 as <-.
  rewrite Hitems, deleteWhere_lookup. split.
  - intros [Hk Hno]. split; [exact Hk|]. intros Hexp. apply Hno.
    exists item. split; [apply elem_of_map_to_list; exact Hk|].
    apply expired_test. exact Hexp.
  - intros [Hk Hlive]. split; [exact Hk|]. intros (v & Hin & Hv).
    apply elem_of_map_to_list in Hin. rewrite Hk in Hin. injection Hin as <-.
    apply Hlive. apply expired_test. exact Hv.
Qed.

Lemma Flush_empty (c : cache) :
  items (Flush c) = ∅ /\
  calls (Flush c) = calls c /\
  onEvicted (Flush c) = onEvicted c /\
  defaultExpiration (Flush c) = defaultExpiration c /\
  wrapU 32 (counter (Flush c)) = wrapU 32 (counter c - Z.of_nat (size (items c))).
Proof.
  unfold Flush, Range. rewrite Flush_scan.
  destruct (deleteWhere_fields (fun _ => true) (map_to_list (items c)) c)
    as (Hd & Ho & Hcalls).
  repeat split; try assumption.
  - apply map_empty. intros k.
    destruct (items (deleteWhere _ _ c) !! k) as [item|] eqn:Hk; [|reflexivity].
    apply deleteWhere_lookup in Hk as [Hk Hno]. exfalso. apply Hno.
    exists item. split; [apply elem_of_map_to_list; exact Hk | reflexivity].
  - rewrite deleteWhere_counter. do 3 f_equal.
    rewrite <- length_map_to_list. f_equal. clear.
    induction (map_to_list (items c)) as [|kv l IH]; [reflexivity|].
    rewrite filter_cons_True by exact I. f_equal. exact IH.
Qed.

(** ** [Items] *)

Lemma Items_scan_all_expired (now : Z) (l : list (string * Item)) :
  (forall k v, (k, v) ∈ l -> expiredAt now v) ->
  rangeOver (Items_func1 now) l (Returns nilMap) = Returns nilMap.
Proof.
  induction l as [|[k v] l IH]; intros Hall; simpl; [reflexivity|].
  assert (Hv : expiredAt now v) by (apply (Hall k); left).
  apply expired_test in Hv. rewrite Hv. apply IH.
  intros k' v' Hin. apply (Hall k'). right. exact Hin.
Qed.

Lemma Items_scan_live (now : Z) (l : list (string * Item)) (k : string) (v : Item) :
  (k, v) ∈ l -> ~ expiredAt now v ->
  rangeOver (Items_func1 now) l (Returns nilMap) = Panics nilMapPanic.
Proof.
  induction l as [|[k0 v0] l IH]; intros Hin Hlive; [inversion Hin|]. simpl.
  destruct ((0 <? Expiration v0) && (Expiration v0 <? now)) eqn:Hv0.
  - apply IH; [|exact Hlive].
    apply elem_of_cons in Hin as [Heq | Hin]; [|exact Hin].
    injection Heq as -> ->. apply expired_test in Hv0. contradiction.
  - reflexivity.
Qed.

(** [Items] returns only when no entry is live, and then returns the
    nil map; with a live entry in the store it panics. *)
Lemma Items_outcome (c : cache) (now : Z) :
  ((exists k item, items c !! k = Some item /\ ~ expiredAt now item) ->
   Items c now = Panics nilMapPanic) /\
  ((forall k item, items c !! k = Some item -> expiredAt now item) ->
   Items c now = Returns nilMap).
Proof.
  unfold Items, Range. split.
  - intros (k & item & Hk & Hlive).
    apply (Items_scan_live now _ k item); [|exact Hlive].
    apply elem_of_map_to_list. exact Hk.
  - intros Hall. apply Items_scan_all_expired.
    intros k v Hin. apply (Hall k). apply elem_of_map_to_list. exact Hin.
Qed.

(** When [Items] does return, what it returns reads as the empty map
    and the store holds nothing but expired entries. *)
Lemma Items_returns_nil (c : cache) (now : Z) (m : gomap) :
  Items c now = Returns m ->
  entries m = ∅ /\ forall k item, items c !! k = Some item -> expiredAt now item.
Proof.
  unfold Items, Range. intros Hrun.
  assert (Hl : forall l,
             rangeOver (Items_func1 now) l (Returns nilMap) = Returns m ->
             m = nilMap /\ forall k v, (k, v) ∈ l -> expiredAt now v).
  { induction l as [|[k0 v0] l IH]; simpl.
    - intros [= <-]. split; [reflexivity|]. intros k v Hin. inversion Hin.
    - destruct ((0 <? Expiration v0) && (Expiration v0 <? now)) eqn:Hv0;
        [|discriminate].
      intros H. destruct (IH H) as [-> Hall]. split; [reflexivity|].
      intros k v Hin. apply elem_of_cons in Hin as [Heq | Hin].
      + injection Heq as -> ->. apply expired_test. exact Hv0.
      + apply (Hall k). exact Hin. }
  destruct (Hl _ Hrun) as [-> Hall]. split; [reflexivity|].
  intros k item Hk. apply (Hall k). apply elem_of_map_to_list. exact Hk.
Qed.

(** The scan itself selects the right entries: started on a map that
    has been made, it ends with exactly the entries that are not
    expired at [now]. *)
Lemma Items_scan_made (now : Z) (l : list (string * Item)) (g : gmap string Item) :
  NoDup l.*1 ->
  (forall k, k ∈ l.*1 -> g !! k = None) ->
  exists g',
    rangeOver (Items_func1 now) l (Returns (madeMap g)) = Returns (madeMap g') /\
    forall k item,
      g' !! k = Some item <->
      ((k, item) ∈ l /\ ~ expiredAt now item) \/ g !! k = Some item.
Proof.
  revert g. induction l as [|[k0 v0] l IH]; intros g Hnd Hfresh; simpl.
  - exists g. split; [reflexivity|]. intros k item. split; [auto|].
    intros [[Hin _] | H]; [inversion Hin | exact H].
  - apply NoDup_cons in Hnd as [Hk0 Hnd].
    assert (Hnotin : forall item, (k0, item) ∈ l -> False).
    { intros item Hin. apply Hk0. apply list_elem_of_fmap. exists (k0, item). auto. }
    destruct ((0 <? Expiration v0) && (Expiration v0 <? now)) eqn:Hv0.
    + apply expired_test in Hv0.
      destruct (IH g Hnd) as (g' & Hrun & Hg').
      { intros k Hk. apply Hfresh. right. exact Hk. }
      exists g'. split; [exact Hrun|]. intros k item. rewrite Hg'.
      split; (intros [[Hin Hlive] | H]; [left | right; exact H]);
        (split; [|exact Hlive]).
      * right. exact Hin.
      * apply elem_of_cons in Hin as [Heq | Hin]; [|exact Hin].
        injection Heq as -> ->. contradiction.
    + apply expired_test_false in Hv0.
      destruct (IH (<[k0 := v0]> g) Hnd) as (g' & Hrun & Hg').
      { intros k Hk. rewrite lookup_insert_ne.
        - apply Hfresh. right. exact Hk.
        - intros ->. contradiction. }
      exists g'. split; [exact Hrun|]. intros k item. rewrite Hg'.
      destruct (decide (k = k0)) as [->|Hne].
      * rewrite lookup_insert_eq, (Hfresh k0) by left. split.
        -- intros [[Hin _] | [= <-]]; [destruct (Hnotin _ Hin)|].
           left. split; [left | exact Hv0].
        -- intros [[Hin Hlive] | H]; [|discriminate].
           apply elem_of_cons in Hin as [Heq | Hin]; [|destruct (Hnotin _ Hin)].
           injection Heq as ->. right. reflexivity.
      * rewrite lookup_insert_ne by congruence. split.
        -- intros [[Hin Hlive] | H]; [left | right; exact H].
           split; [right; exact Hin | exact Hlive].
        -- intros [[Hin Hlive] | H]; [left | right; exact H].
           split; [|exact Hlive].
           apply elem_of_cons in Hin as [Heq | Hin]; [congruence | exact Hin].
Qed.

Lemma Items_func1_made (c : cache) (now : Z) :
  exists g,
    Range (items c) (Items_func1 now) (Returns (madeMap ∅)) = Returns (madeMap g) /\
    forall k item,
      g !! k = Some item <-> items c !! k = Some item /\ ~ expiredAt now item.
Proof.
  destruct (Items_scan_made now (map_to_list (items c)) ∅
              (NoDup_fst_map_to_list _) (fun k _ => lookup_empty k))
    as (g & Hrun & Hg).
  exists g. split; [exact Hrun|]. intros k item. rewrite Hg.
  rewrite elem_of_map_to_list, lookup_empty. split.
  - intros [H | H]; [exact H | discriminate].
  - intros H. left. exact H.
Qed.

(** C1 — [Items] is documented to copy every unexpired entry into a
    new map and return it.  On the store [oneEntry], whose only entry
    is live ([Get] finds it), the call returns no mapping at all: it
    panics on the first entry it tries to copy, because the map it
    writes to was never made.  (The store itself is only read.) *)
Theorem Items_panics_on_oneEntry :
  items oneEntry !! "a" = Some {| Object := Integer Int 1; Expiration := 0 |} /\
  Get oneEntry "a" 200 = (Integer Int 1, true) /\
  Items oneEntry 200 = Panics "assignment to entry in nil map".
Proof. split; [reflexivity | split; reflexivity]. Qed.

(** C2 — Not every public operation returns normally: whatever the
    store, once [Set(k, x, NoExpiration)] has put a never-expiring
    entry into it, [Items] panics at every later time. *)
Theorem Items_panics_after_Set (c : cache) (k : string) (x : any) (now now' : Z) :
  Items (Set_ c k x NoExpiration now) now' = Panics "assignment to entry in nil map".
Proof.
  apply (proj1 (Items_outcome _ now')).
  exists k, {| Object := x; Expiration := 0 |}. split.
  - unfold Set_, safeStore. simpl. apply lookup_insert_eq.
  - unfold expiredAt. simpl. lia.
Qed.

(** The operations that call the hook do return. *)
Lemma Delete_DeleteExpired_return (c : cache) (k : string) (now : Z) :
  (exists c', Delete c k = Returns c') /\ (exists c', DeleteExpired c now = Returns c').
Proof.
  split.
  - destruct (Delete_returns c k) as (c' & H & _). eauto.
  - destruct (DeleteExpired_returns c now) as (c' & H & _). eauto.
Qed.

(** * Sweep *)



(** * The counter *)

Lemma safeStore_counter (c : cache) (k : string) (v : Item) :
  counter (safeStore c k v) = wrapU 32 (counter c + 1).
Proof. reflexivity. Qed.

Lemma safeDelete_counter (c : cache) (k : string) :
  counter (safeDelete c k) = wrapU 32 (counter c - 1).
Proof. reflexivity. Qed.

Lemma rewrites_counter (c c' : cache) (k : string) (f : any -> option any) :
  rewrites c c' k f ->
  counter c' = wrapU 32 (counter c + 1) /\ dom (items c') = dom (items c).
Proof.
  intros H. apply rewrites_frame in H as (_ & _ & Hdom & _ & _ & _ & Hc). auto.
Qed.

(** C8 — The counter goes up by one (in [uint32] arithmetic) on every
    insertion path: [safeStore] itself, [Set] whether or not the key
    was already there, and a successful [Add] or [Replace]; a second
    [Set] of the same key raises it again while the key set stays the
    same.  It goes down by one on every deletion path: [safeDelete]
    itself and [Delete], hook or no hook, key present or not, so that
    with no hook registered and the key absent [Delete] changes nothing
    in the map and still decrements; [Flush] and [DeleteExpired]
    decrement once for each entry they remove. *)
Theorem counter_follows_every_store_and_delete :
  (forall c k v, counter (safeStore c k v) = wrapU 32 (counter c + 1)) /\
  (forall c k, counter (safeDelete c k) = wrapU 32 (counter c - 1)) /\
  (forall c k x d now, ItemCount (Set_ c k x d now) = wrapU 32 (ItemCount c + 1)) /\
  (forall c k x x' d d' now now',
      let c1 := Set_ c k x d now in
      let c2 := Set_ c1 k x' d' now' in
      dom (items c2) = dom (items c1) /\
      ItemCount c2 = wrapU 32 (ItemCount c1 + 1)) /\
  (forall c c' k x d now now',
      Add c k x d now now' = (c', None) \/ Replace c k x d now now' = (c', None) ->
      ItemCount c' = wrapU 32 (ItemCount c + 1)) /\
  (forall c k, exists c',
      Delete c k = Returns c' /\ ItemCount c' = wrapU 32 (ItemCount c - 1)) /\
  (forall c k,
      onEvicted c = None -> items c !! k = None ->
      exists c',
        Delete c k = Returns c' /\ items c' = items c /\
        ItemCount c' = wrapU 32 (ItemCount c - 1)) /\
  (forall c,
      wrapU 32 (ItemCount (Flush c))
      = wrapU 32 (ItemCount c - Z.of_nat (size (items c)))) /\
  (forall c now, exists c',
      DeleteExpired c now = Returns c' /\
      wrapU 32 (ItemCount c')
      = wrapU 32 (ItemCount c
                  - Z.of_nat (length (filter (fun kv => expiredb now kv.2)
                                             (map_to_list (items c)))))).
Proof.
  split; [reflexivity|]. split; [reflexivity|]. split; [reflexivity|].
  split; [|split; [|split; [|split; [|split]]]].
  - intros c k x x' d d' now now' c1 c2. split; [|reflexivity].
    unfold c2, c1, Set_, safeStore. cbn [items].
    apply dom_insert_lookup_L. rewrite lookup_insert_eq. eauto.
  - intros c c' k x d now now' [H | H].
    + unfold Add in H. destruct (get c k now) as [v found].
      destruct found; [discriminate|]. injection H as <-. reflexivity.
    + unfold Replace in H. destruct (get c k now) as [v found].
      destruct found; [|discriminate]. injection H as <-. reflexivity.
  - intros c k. destruct (Delete_returns c k) as (c' & Hrun & _ & _ & Hc & _).
    exists c'. auto.
  - intros c k Hhook Hk.
    destruct (Delete_returns c k) as (c' & Hrun & _ & Hitems & Hc & _).
    exists c'. split; [exact Hrun|]. split; [|exact Hc].
    rewrite Hitems. apply delete_id. exact Hk.
  - intros c. apply Flush_empty.
  - intros c now.
    destruct (DeleteExpired_returns c now) as (c' & Hrun & _ & _ & Hc & _).
    exists c'. split; [exact Hrun|]. unfold ItemCount. rewrite Hc.
    apply deleteWhere_counter.
Qed.

Lemma counter_follows_every_store_and_delete_witness :
  (exists c', Delete (New 0) "a" = Returns c' /\ items c' = items (New 0) /\
              ItemCount c' = 4294967295) /\
  ItemCount (fst (Add oneEntry "b" Nil 0 1 1)) = 2.
Proof.
  destruct counter_follows_every_store_and_delete
    as (_ & _ & _ & _ & Hadd & _ & Hdel & _).
  split.
  - apply (Hdel (New 0) "a"); reflexivity.
  - apply (Hadd oneEntry _ "b" Nil 0 1 1). left. reflexivity.
Defined.

(** * Hook calls *)

(** C9 — With a hook [f] registered, [Delete] of a key that is present
    adds exactly one call to the record of hook calls, [f(k, v)] with
    [v] the value the key held, and removes the key; [Delete] of an
    absent key adds no call; [Set], overwriting or not, adds no call;
    [Flush] empties the map and adds no call. *)
Theorem eviction_hook_calls :
  (forall c k f item,
      onEvicted c = Some f -> items c !! k = Some item ->
      exists c',
        Delete c k = Returns c' /\
        calls c' = calls c ++ [{| fn := f; argKey := k; argValue := Object item |}] /\
        items c' = delete k (items c)) /\
  (forall c k,
      items c !! k = None ->
      exists c', Delete c k = Returns c' /\ calls c' = calls c) /\
  (forall c k x d now, calls (Set_ c k x d now) = calls c) /\
  (forall c, items (Flush c) = ∅ /\ calls (Flush c) = calls c).
Proof.
  split; [|split; [|split]].
  - intros c k f item Hf Hk.
    destruct (Delete_returns c k) as (c' & Hrun & _ & Hitems & _ & _ & Hcalls).
    rewrite Hf, Hk in Hcalls. exists c'. auto.
  - intros c k Hk.
    destruct (Delete_returns c k) as (c' & Hrun & _ & _ & _ & _ & Hcalls).
    rewrite Hk in Hcalls. exists c'. split; [exact Hrun|].
    rewrite Hcalls. destruct (onEvicted c); apply app_nil_r.
  - reflexivity.
  - intros c. destruct (Flush_empty c) as (Hitems & Hcalls & _). auto.
Qed.

Lemma eviction_hook_calls_witness :
  (exists c',
      Delete hookedStore "b" = Returns c' /\
      calls c' = [{| fn := 7%nat; argKey := "b"; argValue := Str "x" |}] /\
      items c' = delete "b" (items hookedStore)) /\
  (exists c', Delete hookedStore "z" = Returns c' /\ calls c' = []).
Proof.
  destruct eviction_hook_calls as (Hpresent & Habsent & _).
  split.
  - apply (Hpresent hookedStore "b" 7%nat {| Object := Str "x"; Expiration := 0 |});
      reflexivity.
  - apply (Habsent hookedStore "z"). reflexivity.
Defined.

(** * Increments and the counter *)

Lemma incrementEach_counter (k : string) (steps : list (Z * Z)) (c c' : cache) :
  incrementEach c k steps = (c', true) ->
  (steps = [] /\ c' = c \/
   ItemCount c' = wrapU 32 (ItemCount c + Z.of_nat (length steps))) /\
  dom (items c') = dom (items c).
Proof.
  revert c. induction steps as [|[n now] rest IH]; intros c; simpl.
  - intros [= <-]. split; [left; split|]; reflexivity.
  - destruct (IncrementInt64 c k n now) as [c1 [nv err]] eqn:Hstep.
    destruct err; [discriminate|]. intros Hrest.
    apply mutateInteger_rewrites in Hstep as [Hstep _].
    apply rewrites_counter in Hstep as [Hc Hdom].
    destruct (IH c1 Hrest) as [Hc' Hdom'].
    split; [right | congruence]. unfold ItemCount in *.
    destruct Hc' as [[-> ->] | Hc'].
    + rewrite Hc. reflexivity.
    + rewrite Hc', Hc. unfold wrapU. rewrite Zplus_mod_idemp_l. f_equal. lia.
Qed.

(** C10 — Every successful generic or typed increment or decrement
    also raises the counter by one (in [uint32] arithmetic), since the
    rewrite goes through [safeStore]; so [n] successful
    [IncrementInt64] calls on a key raise [ItemCount] by [n] (exactly
    [n] as long as the counter does not wrap) while the set of keys
    stays what it was. *)
Theorem increments_raise_ItemCount :
  (forall c c' k n now,
      Increment c k n now = (c', None) \/ Decrement c k n now = (c', None) ->
      ItemCount c' = wrapU 32 (ItemCount c + 1)) /\
  (forall c c' k n now,
      IncrementFloat c k n now = (c', None) \/ DecrementFloat c k n now = (c', None) ->
      ItemCount c' = wrapU 32 (ItemCount c + 1)) /\
  (forall op kd c c' k n now nv,
      mutateInteger op kd c k n now = (c', (nv, None)) ->
      ItemCount c' = wrapU 32 (ItemCount c + 1)) /\
  (forall op fk c c' k n now nv,
      mutateFloating op fk c k n now = (c', (nv, None)) ->
      ItemCount c' = wrapU 32 (ItemCount c + 1)) /\
  (forall c c' k steps,
      incrementEach c k steps = (c', true) -> steps <> [] ->
      dom (items c') = dom (items c) /\
      ItemCount c' = wrapU 32 (ItemCount c + Z.of_nat (length steps)) /\
      (counterOk c -> ItemCount c + Z.of_nat (length steps) < 2 ^ 32 ->
       ItemCount c' = ItemCount c + Z.of_nat (length steps))).
Proof.
  split; [|split; [|split; [|split]]].
  - intros c c' k n now [H | H].
    + apply Increment_rewrites in H. apply (rewrites_counter _ _ _ _ H).
    + apply Decrement_rewrites in H. apply (rewrites_counter _ _ _ _ H).
  - intros c c' k n now [H | H].
    + apply IncrementFloat_rewrites in H. apply (rewrites_counter _ _ _ _ H).
    + apply DecrementFloat_rewrites in H. apply (rewrites_counter _ _ _ _ H).
  - intros op kd c c' k n now nv H.
    apply mutateInteger_rewrites in H as [H _]. apply (rewrites_counter _ _ _ _ H).
  - intros op fk c c' k n now nv H.
    apply mutateFloating_rewrites in H as [H _]. apply (rewrites_counter _ _ _ _ H).
  - intros c c' k steps H Hne.
    destruct (incrementEach_counter k steps c c' H) as [[[Hnil _] | Hc] Hdom];
      [contradiction|].
    split; [exact Hdom|]. split; [exact Hc|].
    intros Hok Hbound. rewrite Hc. apply wrapU_small.
    unfold counterOk, ItemCount in *. lia.
Qed.

Lemma increments_raise_ItemCount_witness :
  ItemCount (fst (incrementEach sampleStore "a" [(1, 101); (2, 102); (3, 103)]))
  = ItemCount sampleStore + 3 /\
  ItemCount (fst (Decrement sampleStore "a" 4 104)) = 3.
Proof.
  destruct increments_raise_ItemCount as (Hgen & _ & _ & _ & Heach).
  split.
  - apply (Heach sampleStore _ "a" [(1, 101); (2, 102); (3, 103)]).
    + reflexivity.
    + discriminate.
    + unfold counterOk. change (counter sampleStore) with 2. lia.
    + change (ItemCount sampleStore) with 2. simpl. lia.
  - apply (Hgen sampleStore _ "a" 4 104). right. reflexivity.
Defined.

(** * The scenarios of the specification, run on the model *)

(** Default expiration 50ms, no sweeper: the entry is found at once,
    not found 60ms later, and still counted until it is swept. *)
Example scenario_default_expiration :
  let c := Set_ (New 50000000) "a" (Integer Int 1) DefaultExpiration 1000 in
  Get c "a" 1000 = (Integer Int 1, true) /\
  Get c "a" (1000 + 60000000) = (Nil, false) /\
  ItemCount c = 1 /\
  (exists c', DeleteExpired c (1000 + 60000000) = Returns c' /\
              ItemCount c' = 0 /\ items c' = ∅).
Proof.
  repeat split; try reflexivity.
  eexists. split; [reflexivity|]. split; reflexivity.
Qed.

Example scenario_Add_twice :
  let '(c1, err1) := Add (New 0) "x" (Integer Int 5) NoExpiration 10 10 in
  let '(c2, err2) := Add c1 "x" (Integer Int 9) NoExpiration 20 20 in
  err1 = None /\ err2 = Some "Item x already exists"%string /\
  Get c2 "x" 30 = (Integer Int 5, true).
Proof. repeat split; reflexivity. Qed.

Example scenario_IncrementInt_on_string :
  let c := Set_ (New 0) "y" (Str "hello") NoExpiration 10 in
  IncrementInt c "y" 1 20 = (c, (0, Some "The value for y is not an int"%string)).
Proof. reflexivity. Qed.

(** An overwrite leaves one key and a counter of two. *)
Example overwrite_drifts_counter :
  let c := Set_ (Set_ (New 0) "a" (Integer Int 1) NoExpiration 10)
                "a" (Integer Int 2) NoExpiration 20 in
  size (items c) = 1%nat /\ ItemCount c = 2.
Proof. split; reflexivity. Qed.

(** [int8] arithmetic wraps: 127 + 1 is -128. *)
Example IncrementInt8_wraps :
  snd (IncrementInt8 (Set_ (New 0) "a" (Integer Int8 127) NoExpiration 10) "a" 1 20)
  = (-128, None).
Proof. reflexivity. Qed.

(** * Further properties of the store *)

(** ** [Replace], [GetWithExpiration], [Set] followed by a read *)

(** X1 — [Replace(k, x, d)] succeeds exactly when the store holds an
    entry for [k] that is not expired at the time of the check, and
    then leaves the store as [Set(k, x, d)] would; when [k] is absent
    or its entry is expired it returns the doesn't-exist error and
    leaves the store untouched. *)
Theorem Replace_succeeds_iff_live (c : cache) (k : string) (x : any) (d now now' : Z) :
  ((exists item, items c !! k = Some item /\ ~ expiredAt now item) ->
   Replace c k x d now now' = (Set_ c k x d now', None)) /\
  ((items c !! k = None \/
    exists item, items c !! k = Some item /\ expiredAt now item) ->
   Replace c k x d now now' = (c, Some ("Item " +:+ k +:+ " doesn't exist"))) /\
  (snd (Replace c k x d now now') = None <->
   exists item, items c !! k = Some item /\ ~ expiredAt now item).
Proof.
  pose proof (get_found c k now) as Hfound.
  unfold Replace. destruct (get c k now) as [v found] eqn:Hget. simpl in Hfound.
  destruct found; simpl.
  - assert (Hlive : exists item, items c !! k = Some item /\ ~ expiredAt now item)
      by (apply Hfound; reflexivity).
    split; [intros _; reflexivity|]. split.
    + destruct Hlive as (item & Hk & Hlive).
      intros [Hnone | (item' & Hk' & Hexp)]; [congruence|].
      rewrite Hk in Hk'. injection Hk' as <-. contradiction.
    + split; [intros _; exact Hlive | reflexivity].
  - assert (Hdead : ~ exists item, items c !! k = Some item /\ ~ expiredAt now item)
      by (intros H; apply Hfound in H; discriminate).
    split; [intros H; contradiction|]. split.
    + intros _. reflexivity.
    + split; [discriminate | intros H; contradiction].
Qed.

Lemma Replace_succeeds_iff_live_witness :
  Replace sampleStore "a" (Str "y") 5 110 110
    = (Set_ sampleStore "a" (Str "y") 5 110, None) /\
  Replace sampleStore "a" (Str "y") 5 111 111
    = (sampleStore, Some "Item a doesn't exist"%string) /\
  Replace sampleStore "z" (Str "y") 5 111 111
    = (sampleStore, Some "Item z doesn't exist"%string).
Proof.
  split; [|split].
  - apply (proj1 (Replace_succeeds_iff_live sampleStore "a" (Str "y") 5 110 110)).
    exists {| Object := Integer Int64 5; Expiration := 110 |}.
    split; [reflexivity | unfold expiredAt; simpl; lia].
  - apply (proj1 (proj2 (Replace_succeeds_iff_live sampleStore "a" (Str "y") 5 111 111))).
    right. exists {| Object := Integer Int64 5; Expiration := 110 |}.
    split; [reflexivity | unfold expiredAt; simpl; lia].
  - apply (proj1 (proj2 (Replace_succeeds_iff_live sampleStore "z" (Str "y") 5 111 111))).
    left. reflexivity.
Defined.

(** X2 — [GetWithExpiration] returns the value and the found flag that
    [Get] returns at the same time, and reports an expiration time [e]
    exactly when the key holds an entry whose expiration [e] is set
    (positive) and not yet passed; for a found entry without expiration
    it reports the zero time. *)
Theorem GetWithExpiration_agrees_with_Get (c : cache) (k : string) (now : Z) :
  fst (fst (GetWithExpiration c k now)) = fst (Get c k now) /\
  snd (GetWithExpiration c k now) = snd (Get c k now) /\
  (forall e,
      snd (fst (GetWithExpiration c k now)) = Some e <->
      exists item, items c !! k = Some item /\ Expiration item = e /\ 0 < e /\ now <= e).
Proof.
  unfold GetWithExpiration, Get.
  destruct (items c !! k) as [item|] eqn:Hk.
  - destruct (0 <? Expiration item) eqn:Hpos; simpl.
    + apply Z.ltb_lt in Hpos.
      destruct (Expiration item <? now) eqn:Hlt; simpl.
      * apply Z.ltb_lt in Hlt. split; [reflexivity|]. split; [reflexivity|].
        intros e. split; [discriminate|].
        intros (item' & [= <-] & <- & _ & Hle). lia.
      * apply Z.ltb_ge in Hlt. split; [reflexivity|]. split; [reflexivity|].
        intros e. split.
        -- intros [= <-]. exists item. auto.
        -- intros (item' & [= <-] & <- & _). reflexivity.
    + apply Z.ltb_ge in Hpos. split; [reflexivity|]. split; [reflexivity|].
      intros e. split; [discriminate|].
      intros (item' & [= <-] & <- & He & _). lia.
  - simpl. split; [reflexivity|]. split; [reflexivity|].
    intros e. split; [discriminate|]. intros (item' & Hk' & _). discriminate.
Qed.

Lemma Set_lookup (c : cache) (k : string) (x : any) (d now : Z) :
  items (Set_ c k x d now)
  = <[k := {| Object := x;
              Expiration := if 0 <? effective c d
                            then unixNanoAfter now (effective c d) else 0 |}]>
      (items c).
Proof. reflexivity. Qed.

(** X3 — Reading back what [Set(k, x, d)] stored at time [now], with
    [d'] the duration after the store's default is substituted for
    [DefaultExpiration]: if [d'] is not positive the entry never
    expires; if it is positive (and [now + d'] is a positive [int64])
    the entry is returned up to and including time [now + d'], with
    that instant as its expiration time, and is not found afterwards.
    Reads of every other key are unaffected. *)
Theorem Set_then_Get (c : cache) (k : string) (x : any) (d now : Z) :
  (effective c d <= 0 ->
   forall now', Get (Set_ c k x d now) k now' = (x, true) /\
                GetWithExpiration (Set_ c k x d now) k now' = (x, None, true)) /\
  (0 < effective c d -> 0 < now + effective c d < 2 ^ 63 ->
   forall now',
     (now' <= now + effective c d ->
      Get (Set_ c k x d now) k now' = (x, true) /\
      GetWithExpiration (Set_ c k x d now) k now'
        = (x, Some (now + effective c d), true)) /\
     (now + effective c d < now' ->
      Get (Set_ c k x d now) k now' = (Nil, false) /\
      GetWithExpiration (Set_ c k x d now) k now' = (Nil, None, false))) /\
  (forall k' now', k' <> k ->
     Get (Set_ c k x d now) k' now' = Get c k' now' /\
     GetWithExpiration (Set_ c k x d now) k' now' = GetWithExpiration c k' now').
Proof.
  split; [|split].
  - intros Hd now'. unfold Get, GetWithExpiration.
    rewrite Set_lookup, lookup_insert_eq.
    replace (0 <? effective c d) with false by (symmetry; apply Z.ltb_ge; lia).
    split; reflexivity.
  - intros Hd Hrange now'.
    assert (He : unixNanoAfter now (effective c d) = now + effective c d).
    { unfold unixNanoAfter. apply wrapS_small; [lia|].
      change (64 - 1) with 63. lia. }
    unfold Get, GetWithExpiration. rewrite Set_lookup, lookup_insert_eq.
    replace (0 <? effective c d) with true by (symmetry; apply Z.ltb_lt; lia).
    rewrite He. cbn [Expiration Object].
    replace (0 <? now + effective c d) with true by (symmetry; apply Z.ltb_lt; lia).
    split; intros Hnow'.
    + replace (now + effective c d <? now') with false
        by (symmetry; apply Z.ltb_ge; lia).
      split; reflexivity.
    + replace (now + effective c d <? now') with true
        by (symmetry; apply Z.ltb_lt; lia).
      split; reflexivity.
  - intros k' now' Hne. unfold Get, GetWithExpiration.
    rewrite Set_lookup, lookup_insert_ne by congruence. split; reflexivity.
Qed.

Lemma Set_then_Get_witness :
  Get (Set_ (New 50) "k" (Str "v") DefaultExpiration 1000) "k" 1050 = (Str "v", true) /\
  Get (Set_ (New 50) "k" (Str "v") DefaultExpiration 1000) "k" 1051 = (Nil, false) /\
  Get (Set_ (New 50) "k" (Str "v") NoExpiration 1000) "k" 999999 = (Str "v", true).
Proof.
  split; [|split].
  - apply (proj1 (proj2 (Set_then_Get (New 50) "k" (Str "v") DefaultExpiration 1000))
             ltac:(reflexivity) ltac:(split; reflexivity) 1050).
    apply Z.leb_le. reflexivity.
  - apply (proj1 (proj2 (Set_then_Get (New 50) "k" (Str "v") DefaultExpiration 1000))
             ltac:(reflexivity) ltac:(split; reflexivity) 1051).
    reflexivity.
  - apply (proj1 (Set_then_Get (New 50) "k" (Str "v") NoExpiration 1000)).
    apply Z.leb_le. reflexivity.
Defined.

(** ** The two expiration tests *)

(** X4 — The inlined test of [Get], [GetWithExpiration] and
    [DeleteExpired] ([Expiration > 0 && now > Expiration]) and the
    method [Item.Expired] ([Expiration != 0 && now > Expiration])
    disagree on a negative [Expiration]: such an entry is returned by
    [Get] and [GetWithExpiration] as one that never expires and is kept
    by a sweep, while every increment and decrement, generic or typed,
    reports it as not found and leaves the store untouched. *)
Theorem negative_expiration_splits_readers
    (c : cache) (k : string) (item : Item) (n now : Z) :
  items c !! k = Some item ->
  Expiration item < 0 ->
  Expiration item < now ->
  Get c k now = (Object item, true) /\
  GetWithExpiration c k now = (Object item, None, true) /\
  (exists c', DeleteExpired c now = Returns c' /\ items c' !! k = Some item) /\
  Increment c k n now = (c, Some ("Item " +:+ k +:+ " not found")) /\
  Decrement c k n now = (c, Some "Item not found"%string) /\
  (forall op kd,
      mutateInteger op kd c k n now = (c, (0, Some ("Item " +:+ k +:+ " not found")))) /\
  (forall op fk x,
      mutateFloating op fk c k x now
      = (c, (S754_zero false, Some ("Item " +:+ k +:+ " not found")))).
Proof.
  intros Hk Hneg Hnow.
  assert (Hpos : (0 <? Expiration item) = false) by (apply Z.ltb_ge; lia).
  assert (Hexp : Expired item now = true).
  { unfold Expired.
    replace (Expiration item =? 0) with false by (symmetry; apply Z.eqb_neq; lia).
    apply Z.ltb_lt. exact Hnow. }
  split; [|split; [|split; [|split; [|split; [|split]]]]].
  - unfold Get. rewrite Hk, Hpos. reflexivity.
  - unfold GetWithExpiration. rewrite Hk, Hpos. reflexivity.
  - destruct (DeleteExpired_returns c now) as (c' & Hrun & _).
    exists c'. split; [exact Hrun|].
    apply (DeleteExpired_lookup c c' now k item Hrun). split; [exact Hk|].
    unfold expiredAt. lia.
  - unfold Increment. rewrite Hk, Hexp. reflexivity.
  - unfold Decrement. rewrite Hk, Hexp. reflexivity.
  - intros op kd. unfold mutateInteger. rewrite Hk, Hexp. reflexivity.
  - intros op fk x. unfold mutateFloating. rewrite Hk, Hexp. reflexivity.
Qed.

Lemma negative_expiration_splits_readers_witness :
  Get negativeEntry "n" 100 = (Integer Int64 5, true) /\
  IncrementInt64 negativeEntry "n" 1 100
    = (negativeEntry, (0, Some "Item n not found"%string)).
Proof.
  pose proof (negative_expiration_splits_readers negativeEntry "n"
                {| Object := Integer Int64 5; Expiration := -7 |} 1 100
                eq_refl ltac:(reflexivity) ltac:(reflexivity))
    as (Hget & _ & _ & _ & _ & Htyped & _).
  split; [exact Hget | exact (Htyped Z.add Int64)].
Defined.

(** ** Failing increments and decrements *)

(** X5 — A typed [IncrementT]/[DecrementT] on an integer type [T] has
    three outcomes.  It succeeds when the key holds a value of exactly
    type [T] in an entry [Item.Expired] does not reject, returning the
    wrapped sum or difference.  It fails with the not-found error when
    the key is absent or its entry is expired, and with the is-not-a-[T]
    error when the entry is live but holds anything else, a value of
    another integer type included; a failed call returns 0 and leaves
    the store exactly as it was. *)
Theorem typed_integer_outcome (op : Z -> Z -> Z) (kd : intKind) (c c' : cache)
    (k : string) (n now nv : Z) (err : error) :
  mutateInteger op kd c k n now = (c', (nv, err)) ->
  (err = None /\
   exists item rv,
     items c !! k = Some item /\ Expired item now = false /\
     Object item = Integer kd rv /\ nv = wrap kd (op rv n) /\
     c' = safeStore c k {| Object := Integer kd nv; Expiration := Expiration item |}) \/
  (c' = c /\ nv = 0 /\ err = Some ("Item " +:+ k +:+ " not found") /\
   (items c !! k = None \/
    exists item, items c !! k = Some item /\ Expired item now = true)) \/
  (c' = c /\ nv = 0 /\
   err = Some ("The value for " +:+ k +:+ " is not an " +:+ intName kd) /\
   exists item,
     items c !! k = Some item /\ Expired item now = false /\
     forall rv, Object item <> Integer kd rv).
Proof.
  unfold mutateInteger.
  destruct (items c !! k) as [item|] eqn:Hk.
  - destruct (Expired item now) eqn:Hexp.
    + intros [= <- <- <-]. right. left. repeat split. right. eauto.
    + destruct (Object item) as [|kd' rv|fk f|s] eqn:Hobj.
      * intros [= <- <- <-]. right. right. repeat split.
        exists item. repeat split; auto. intros rv. rewrite Hobj. discriminate.
      * destruct (decide (kd' = kd)) as [->|Hne].
        -- intros [= <- <- <-]. left. split; [reflexivity|].
           exists item, rv. rewrite Hobj. auto.
        -- intros [= <- <- <-]. right. right. repeat split.
           exists item. repeat split; auto. intros rv'. rewrite Hobj. congruence.
      * intros [= <- <- <-]. right. right. repeat split.
        exists item. repeat split; auto. intros rv. rewrite Hobj. discriminate.
      * intros [= <- <- <-]. right. right. repeat split.
        exists item. repeat split; auto. intros rv. rewrite Hobj. discriminate.
  - intros [= <- <- <-]. right. left. repeat split. left. reflexivity.
Qed.

Lemma typed_integer_outcome_witness :
  (exists item,
      items sampleStore !! "a" = Some item /\ Expired item 105 = false /\
      forall rv, Object item <> Integer Int rv) /\
  (items sampleStore !! "a" = None \/
   exists item, items sampleStore !! "a" = Some item /\ Expired item 111 = true).
Proof.
  split.
  - destruct (typed_integer_outcome Z.add Int sampleStore sampleStore "a" 1 105 0
                (Some "The value for a is not an int"%string) eq_refl)
      as [[H _] | [(_ & _ & H & _) | (_ & _ & _ & H)]];
      [discriminate | discriminate | exact H].
  - destruct (typed_integer_outcome Z.sub Int64 sampleStore sampleStore "a" 1 111 0
                (Some "Item a not found"%string) eq_refl)
      as [[H _] | [(_ & _ & _ & H) | (_ & _ & H & _)]];
      [discriminate | exact H | discriminate].
Defined.

Lemma switchAdd_numeric (x : any) (n : Z) : is_Some (switchAdd x n) <-> numeric x.
Proof.
  destruct x; simpl; split; intros H; try exact I; eauto;
    try (destruct H as [? H]; discriminate); contradiction.
Qed.

Lemma switchSub_numeric (x : any) (n : Z) : is_Some (switchSub x n) <-> numeric x.
Proof.
  destruct x; simpl; split; intros H; try exact I; eauto;
    try (destruct H as [? H]; discriminate); contradiction.
Qed.

Lemma Increment_ok_iff (c : cache) (k : string) (n now : Z) :
  snd (Increment c k n now) = None <->
  exists item, items c !! k = Some item /\ Expired item now = false /\
               numeric (Object item).
Proof.
  unfold Increment. destruct (items c !! k) as [item|] eqn:Hk.
  - destruct (Expired item now) eqn:Hexp.
    + split; [discriminate|]. intros (item' & [= <-] & Hlive & _). congruence.
    + pose proof (switchAdd_numeric (Object item) n) as Hnum.
      destruct (switchAdd (Object item) n) as [x|]; simpl.
      * split; [|reflexivity]. intros _. exists item.
        split; [reflexivity|]. split; [exact Hexp|]. apply Hnum. eauto.
      * split; [discriminate|]. intros (item' & [= <-] & _ & H).
        apply Hnum in H. destruct H as [x H]. discriminate.
  - split; [discriminate|]. intros (item' & Hk' & _). discriminate.
Qed.

Lemma Decrement_ok_iff (c : cache) (k : string) (n now : Z) :
  snd (Decrement c k n now) = None <->
  exists item, items c !! k = Some item /\ Expired item now = false /\
               numeric (Object item).
Proof.
  unfold Decrement. destruct (items c !! k) as [item|] eqn:Hk.
  - destruct (Expired item now) eqn:Hexp.
    + split; [discriminate|]. intros (item' & [= <-] & Hlive & _). congruence.
    + pose proof (switchSub_numeric (Object item) n) as Hnum.
      destruct (switchSub (Object item) n) as [x|]; simpl.
      * split; [|reflexivity]. intros _. exists item.
        split; [reflexivity|]. split; [exact Hexp|]. apply Hnum. eauto.
      * split; [discriminate|]. intros (item' & [= <-] & _ & H).
        apply Hnum in H. destruct H as [x H]. discriminate.
  - split; [discriminate|]. intros (item' & Hk' & _). discriminate.
Qed.

Lemma Increment_failed_unchanged (c : cache) (k : string) (n now : Z) :
  snd (Increment c k n now) <> None -> fst (Increment c k n now) = c.
Proof.
  unfold Increment. destruct (items c !! k) as [item|]; [|reflexivity].
  destruct (Expired item now); [reflexivity|].
  destruct (switchAdd (Object item) n); [|reflexivity].
  simpl. congruence.
Qed.

Lemma Decrement_failed_unchanged (c : cache) (k : string) (n now : Z) :
  snd (Decrement c k n now) <> None -> fst (Decrement c k n now) = c.
Proof.
  unfold Decrement. destruct (items c !! k) as [item|]; [|reflexivity].
  destruct (Expired item now); [reflexivity|].
  destruct (switchSub (Object item) n); [|reflexivity].
  simpl. congruence.
Qed.

(** X6 — The generic [Increment] and [Decrement] succeed exactly when
    the key holds a value of one of the thirteen numeric types in an
    entry [Item.Expired] does not reject.  A failed call leaves the
    store exactly as it was; on a live entry holding any other value
    (a string, nil) the error is the is-not-an-integer one. *)
Theorem generic_increment_outcome (c : cache) (k : string) (n now : Z) :
  (snd (Increment c k n now) = None <->
   exists item, items c !! k = Some item /\ Expired item now = false /\
                numeric (Object item)) /\
  (snd (Decrement c k n now) = None <->
   exists item, items c !! k = Some item /\ Expired item now = false /\
                numeric (Object item)) /\
  (snd (Increment c k n now) <> None -> fst (Increment c k n now) = c) /\
  (snd (Decrement c k n now) <> None -> fst (Decrement c k n now) = c) /\
  (forall item,
      items c !! k = Some item -> Expired item now = false ->
      ~ numeric (Object item) ->
      Increment c k n now
        = (c, Some ("The value for " +:+ k +:+ " is not an integer")) /\
      Decrement c k n now
        = (c, Some ("The value for " +:+ k +:+ " is not an integer"))).
Proof.
  split; [apply Increment_ok_iff|]. split; [apply Decrement_ok_iff|].
  split; [apply Increment_failed_unchanged|].
  split; [apply Decrement_failed_unchanged|].
  intros item Hk Hlive Hnum. unfold Increment, Decrement. rewrite Hk, Hlive.
  destruct (Object item); simpl in Hnum; try (exfalso; apply Hnum; exact I);
    split; reflexivity.
Qed.

Lemma generic_increment_outcome_witness :
  Increment sampleStore "b" 1 105
    = (sampleStore, Some "The value for b is not an integer"%string) /\
  fst (Decrement sampleStore "zz" 1 105) = sampleStore.
Proof.
  destruct (generic_increment_outcome sampleStore "b" 1 105) as (_ & _ & _ & _ & H).
  destruct (generic_increment_outcome sampleStore "zz" 1 105) as (_ & _ & _ & H' & _).
  split.
  - apply (H {| Object := Str "x"; Expiration := 0 |} eq_refl eq_refl).
    intros Hnum. exact Hnum.
  - apply H'. discriminate.
Defined.

Lemma switchAddFloat_floating (x : any) (n : spec_float) :
  is_Some (switchAddFloat x n) <-> exists fk f, x = Floating fk f.
Proof.
  destruct x; simpl; split.
  all: try (intros [? H]; discriminate).
  all: try (intros (fk' & f' & H); discriminate).
  - eauto.
  - eauto.
Qed.

Lemma switchSubFloat_floating (x : any) (n : spec_float) :
  is_Some (switchSubFloat x n) <-> exists fk f, x = Floating fk f.
Proof.
  destruct x; simpl; split.
  all: try (intros [? H]; discriminate).
  all: try (intros (fk' & f' & H); discriminate).
  - eauto.
  - eauto.
Qed.

(** X7 — [IncrementFloat] and [DecrementFloat] succeed exactly when the
    key holds a [float32] or [float64] in an entry [Item.Expired] does
    not reject.  On a live integer value, which the generic [Increment]
    accepts, they fail with the does-not-have-type error and leave the
    store exactly as it was. *)
Theorem float_increment_outcome (c : cache) (k : string) (x : spec_float) (now : Z) :
  (snd (IncrementFloat c k x now) = None <->
   exists item fk f, items c !! k = Some item /\ Expired item now = false /\
                     Object item = Floating fk f) /\
  (snd (DecrementFloat c k x now) = None <->
   exists item fk f, items c !! k = Some item /\ Expired item now = false /\
                     Object item = Floating fk f) /\
  (forall item kd z n,
      items c !! k = Some item -> Expired item now = false ->
      Object item = Integer kd z ->
      IncrementFloat c k x now
        = (c, Some ("The value for " +:+ k +:+ " does not have type float32 or float64")) /\
      DecrementFloat c k x now
        = (c, Some ("The value for " +:+ k +:+ " does not have type float32 or float64")) /\
      snd (Increment c k n now) = None).
Proof.
  split; [|split].
  - unfold IncrementFloat. destruct (items c !! k) as [item|] eqn:Hk.
    + destruct (Expired item now) eqn:Hexp.
      * split; [discriminate|].
        intros (item' & fk & f & [= <-] & Hlive & _). congruence.
      * pose proof (switchAddFloat_floating (Object item) x) as Hfl.
        destruct (switchAddFloat (Object item) x) as [y|]; simpl.
        -- split; [|reflexivity]. intros _.
           destruct (proj1 Hfl ltac:(eauto)) as (fk & f & Hobj).
           exists item, fk, f. auto.
        -- split; [discriminate|]. intros (item' & fk & f & [= <-] & _ & Hobj).
           destruct (proj2 Hfl ltac:(eauto)) as [y Hy]. discriminate.
    + split; [discriminate|]. intros (item' & fk & f & Hk' & _). discriminate.
  - unfold DecrementFloat. destruct (items c !! k) as [item|] eqn:Hk.
    + destruct (Expired item now) eqn:Hexp.
      * split; [discriminate|].
        intros (item' & fk & f & [= <-] & Hlive & _). congruence.
      * pose proof (switchSubFloat_floating (Object item) x) as Hfl.
        destruct (switchSubFloat (Object item) x) as [y|]; simpl.
        -- split; [|reflexivity]. intros _.
           destruct (proj1 Hfl ltac:(eauto)) as (fk & f & Hobj).
           exists item, fk, f. auto.
        -- split; [discriminate|]. intros (item' & fk & f & [= <-] & _ & Hobj).
           destruct (proj2 Hfl ltac:(eauto)) as [y Hy]. discriminate.
    + split; [discriminate|]. intros (item' & fk & f & Hk' & _). discriminate.
  - intros item kd z n Hk Hlive Hobj.
    unfold IncrementFloat, DecrementFloat, Increment.
    rewrite Hk, Hlive, Hobj. simpl. repeat split; reflexivity.
Qed.

Lemma float_increment_outcome_witness :
  IncrementFloat sampleStore "a" (S754_zero false) 105
    = (sampleStore,
       Some "The value for a does not have type float32 or float64"%string) /\
  snd (Increment sampleStore "a" 3 105) = None.
Proof.
  destruct (float_increment_outcome sampleStore "a" (S754_zero false) 105)
    as (_ & _ & H).
  destruct (H {| Object := Integer Int64 5; Expiration := 110 |} Int64 5 3
              eq_refl eq_refl eq_refl) as (Hinc & _ & Hgen).
  split; [exact Hinc | exact Hgen].
Defined.

(** ** How the increments relate to one another *)

(** X8 — On a live entry holding an integer of type [T], the generic
    [Increment(k, n)] does to the store exactly what the typed
    [IncrementT(k, T(n))] does, and [Decrement(k, n)] what
    [DecrementT(k, T(n))] does; the value written is the old one plus
    or minus [n], wrapped to [T]. *)
Theorem generic_is_typed_on_narrowed_delta
    (c : cache) (k : string) (item : Item) (kd : intKind) (z n now : Z) :
  items c !! k = Some item ->
  Expired item now = false ->
  Object item = Integer kd z ->
  Increment c k n now = (fst (mutateInteger Z.add kd c k (wrap kd n) now), None) /\
  Decrement c k n now = (fst (mutateInteger Z.sub kd c k (wrap kd n) now), None) /\
  snd (mutateInteger Z.add kd c k (wrap kd n) now) = (wrap kd (z + n), None) /\
  snd (mutateInteger Z.sub kd c k (wrap kd n) now) = (wrap kd (z - n), None).
Proof.
  intros Hk Hlive Hobj.
  rewrite !(mutateInteger_ok _ kd c k (wrap kd n) now item z Hk Hlive Hobj).
  unfold Increment, Decrement. rewrite Hk, Hlive, Hobj. simpl.
  rewrite wrap_add_wrap, wrap_sub_wrap. repeat split; reflexivity.
Qed.

Lemma generic_is_typed_on_narrowed_delta_witness :
  Increment sampleStore "a" 300 105
    = (fst (IncrementInt64 sampleStore "a" 300 105), None) /\
  snd (IncrementInt64 sampleStore "a" 300 105) = (305, None).
Proof.
  destruct (generic_is_typed_on_narrowed_delta sampleStore "a"
              {| Object := Integer Int64 5; Expiration := 110 |} Int64 5 300 105
              eq_refl eq_refl eq_refl) as (Hinc & _ & Hval & _).
  split; [exact Hinc | exact Hval].
Defined.

Lemma wrap_wrapS64 (kd : intKind) (m : Z) : wrap kd (wrapS 64 m) = wrap kd m.
Proof.
  assert (Hq : exists q, wrapS 64 m = m + q * 2 ^ 64).
  { exists (- ((m + 2 ^ (64 - 1)) / 2 ^ 64)). unfold wrapS.
    pose proof (Z.div_mod (m + 2 ^ (64 - 1)) (2 ^ 64) ltac:(lia)) as H. lia. }
  destruct Hq as [q ->].
  assert (Hb : exists r, 2 ^ 64 = r * 2 ^ bits kd).
  { exists (2 ^ (64 - bits kd)). rewrite <- Z.pow_add_r.
    - f_equal. lia.
    - destruct kd; unfold bits, uintSize; lia.
    - pose proof (bits_pos kd). lia. }
  destruct Hb as [r Hr]. rewrite Hr.
  replace (m + q * (r * 2 ^ bits kd)) with (m + (q * r) * 2 ^ bits kd) by lia.
  unfold wrap, wrapS, wrapU. destruct (signed kd).
  - f_equal.
    replace (m + q * r * 2 ^ bits kd + 2 ^ (bits kd - 1))
      with (m + 2 ^ (bits kd - 1) + q * r * 2 ^ bits kd) by lia.
    apply Z_mod_plus_full.
  - apply Z_mod_plus_full.
Qed.

(** X9 — On a live integer entry, [Decrement(k, n)] leaves the store
    exactly as [Increment(k, -n)] does, [-n] being computed in [int64]
    (so also for the least [int64], whose negation is itself). *)
Theorem Decrement_is_Increment_of_negation
    (c : cache) (k : string) (item : Item) (kd : intKind) (z n now : Z) :
  items c !! k = Some item ->
  Expired item now = false ->
  Object item = Integer kd z ->
  Decrement c k n now = Increment c k (wrapS 64 (- n)) now.
Proof.
  intros Hk Hlive Hobj. unfold Increment, Decrement.
  rewrite Hk, Hlive, Hobj. simpl.
  rewrite wrap_sub_wrap, wrap_wrapS64, wrap_add_wrap.
  replace (z + - n) with (z - n) by lia. reflexivity.
Qed.

Lemma Decrement_is_Increment_of_negation_witness :
  Decrement sampleStore "a" 3 105 = Increment sampleStore "a" (-3) 105.
Proof.
  apply (Decrement_is_Increment_of_negation sampleStore "a"
           {| Object := Integer Int64 5; Expiration := 110 |} Int64 5 3 105);
    reflexivity.
Defined.

Lemma wrap_wrap_add (kd : intKind) (x y : Z) :
  wrap kd (wrap kd x + y) = wrap kd (x + y).
Proof.
  rewrite (Z.add_comm (wrap kd x) y), wrap_add_wrap. f_equal. lia.
Qed.

(** X10 — Two typed increments in a row, by [a] and then by [b], on an
    entry that is live at both calls, return [old + a + b] wrapped to
    the type and leave the same entries as a single increment by
    [a + b]; only the counter tells them apart (it goes up twice). *)
Theorem increments_add_up
    (c : cache) (k : string) (item : Item) (kd : intKind) (z a b now now' : Z) :
  items c !! k = Some item ->
  Object item = Integer kd z ->
  Expired item now = false ->
  Expired item now' = false ->
  exists c1 c2,
    mutateInteger Z.add kd c k a now = (c1, (wrap kd (z + a), None)) /\
    mutateInteger Z.add kd c1 k b now' = (c2, (wrap kd (z + (a + b)), None)) /\
    items c2 = items (fst (mutateInteger Z.add kd c k (a + b) now)) /\
    counter c2 = wrapU 32 (wrapU 32 (counter c + 1) + 1).
Proof.
  intros Hk Hobj Hlive Hlive'.
  rewrite (mutateInteger_ok Z.add kd c k a now item z Hk Hlive Hobj).
  rewrite (mutateInteger_ok Z.add kd c k (a + b) now item z Hk Hlive Hobj).
  eexists. eexists. split; [reflexivity|].
  rewrite (mutateInteger_ok Z.add kd _ k b now'
             {| Object := Integer kd (wrap kd (z + a)); Expiration := Expiration item |}
             (wrap kd (z + a))).
  - rewrite wrap_wrap_add, Z.add_assoc. split; [reflexivity|].
    split; [|reflexivity]. unfold safeStore; cbn [items fst].
    apply insert_insert_eq.
  - unfold safeStore; cbn [items]. apply lookup_insert_eq.
  - exact Hlive'.
  - reflexivity.
Qed.

Lemma increments_add_up_witness :
  exists c1 c2,
    IncrementInt64 sampleStore "a" 3 101 = (c1, (8, None)) /\
    IncrementInt64 c1 "a" 4 102 = (c2, (12, None)) /\
    items c2 = items (fst (IncrementInt64 sampleStore "a" 7 101)) /\
    counter c2 = 4.
Proof.
  apply (increments_add_up sampleStore "a"
           {| Object := Integer Int64 5; Expiration := 110 |} Int64 5 3 4 101 102);
    reflexivity.
Defined.

(** ** The sweep *)

Lemma cache_eq (c c' : cache) :
  defaultExpiration c' = defaultExpiration c ->
  items c' = items c ->
  counter c' = counter c ->
  onEvicted c' = onEvicted c ->
  calls c' = calls c ->
  c' = c.
Proof.
  destruct c, c'. simpl. intros -> -> -> -> ->. reflexivity.
Qed.

Lemma deleteWhere_none (P : Item -> bool) (l : list (string * Item)) (c : cache) :
  (forall k v, (k, v) ∈ l -> P v = false) -> deleteWhere P l c = c.
Proof.
  induction l as [|[k v] l IH]; intros Hall; simpl; [reflexivity|].
  rewrite (Hall k v) by left. apply IH.
  intros k' v' Hin. apply (Hall k'). right. exact Hin.
Qed.

Lemma filter_none {A : Type} (P : A -> bool) (l : list A) :
  (forall x, x ∈ l -> P x = false) -> filter (fun x => P x) l = [].
Proof.
  induction l as [|x l IH]; intros Hall; [reflexivity|].
  rewrite filter_cons_False.
  - apply IH. intros y Hy. apply Hall. right. exact Hy.
  - rewrite (Hall x) by left. exact id.
Qed.

(** X11 — [DeleteExpired] calls the eviction hook once for each entry
    it removes and for nothing else: with a hook [f] registered, the
    calls it adds are calls of [f], no two of them for the same key,
    and [f(k, v)] is among them exactly when [k] held an expired entry
    with value [v]; with no hook registered it adds no call. *)
Theorem DeleteExpired_notifies_each_expired (c : cache) (now : Z) :
  exists c' new,
    DeleteExpired c now = Returns c' /\
    calls c' = calls c ++ new /\
    (onEvicted c = None -> new = []) /\
    (forall f, onEvicted c = Some f ->
       NoDup (argKey <$> new) /\
       forall call,
         call ∈ new <->
         fn call = f /\
         exists item, items c !! argKey call = Some item /\
                      expiredAt now item /\ argValue call = Object item).
Proof.
  destruct (DeleteExpired_returns c now) as (c' & Hrun & _ & _ & _ & _ & Hcalls).
  exists c'. eexists. split; [exact Hrun|]. split; [exact Hcalls|].
  split; [intros ->; reflexivity|].
  intros f ->. split.
  - unfold callsOf. rewrite <- !list_fmap_compose.
    apply (sublist_NoDup _ ((map_to_list (items c)).*1));
      [apply NoDup_fst_map_to_list|].
    apply fmap_sublist. apply sublist_filter.
  - intros call. unfold callsOf. rewrite list_elem_of_fmap. split.
    + intros (kv & -> & Hkv). apply list_elem_of_fmap in Hkv as ([k v] & -> & Hin).
      apply list_elem_of_filter in Hin as [HP Hin]. simpl in *.
      split; [reflexivity|]. exists v.
      split; [apply elem_of_map_to_list; exact Hin|].
      split; [|reflexivity]. apply expired_test. apply Is_true_true. exact HP.
    + intros [Hf (item & Hk & Hexp & Hval)].
      exists {| key := argKey call; value := Object item |}. split.
      * destruct call; simpl in *. subst. reflexivity.
      * apply list_elem_of_fmap. exists (argKey call, item). split; [reflexivity|].
        apply list_elem_of_filter. split.
        -- simpl. apply Is_true_true. apply expired_test. exact Hexp.
        -- apply elem_of_map_to_list. exact Hk.
Qed.

Lemma DeleteExpired_notifies_each_expired_witness :
  exists c',
    DeleteExpired hookedStore 500 = Returns c' /\
    calls c' = [{| fn := 7%nat; argKey := "a"; argValue := Integer Int64 5 |}].
Proof.
  destruct (DeleteExpired_notifies_each_expired hookedStore 500)
    as (c' & new & Hrun & _).
  exists c'. split; [exact Hrun|].
  vm_compute in Hrun. injection Hrun as <-. reflexivity.
Defined.

(** X12 — A sweep cannot be observed through reads made at or after
    the sweep's own time: for every key, [Get] and [GetWithExpiration]
    return after [DeleteExpired] at time [T] what they would have
    returned without it, at every time from [T] on. *)
Theorem DeleteExpired_invisible_to_Get (c c' : cache) (T now' : Z) (k : string) :
  DeleteExpired c T = Returns c' ->
  T <= now' ->
  Get c' k now' = Get c k now' /\
  GetWithExpiration c' k now' = GetWithExpiration c k now'.
Proof.
  intros Hrun Hle.
  pose proof (fun item => DeleteExpired_lookup c c' T k item Hrun) as Hlook.
  unfold Get, GetWithExpiration.
  destruct (items c !! k) as [item|] eqn:Hk.
  - destruct (decide (expiredAt T item)) as [Hexp | Hlive].
    + assert (Hgone : items c' !! k = None).
      { destruct (items c' !! k) as [item'|] eqn:Hk'; [|reflexivity].
        destruct (proj1 (Hlook item') eq_refl) as [[= ->] Hno]. contradiction. }
      rewrite Hgone. unfold expiredAt in Hexp.
      replace (0 <? Expiration item) with true by (symmetry; apply Z.ltb_lt; lia).
      replace (Expiration item <? now') with true by (symmetry; apply Z.ltb_lt; lia).
      split; reflexivity.
    + assert (Hkept : items c' !! k = Some item) by (apply Hlook; auto).
      rewrite Hkept. split; reflexivity.
  - assert (Hgone : items c' !! k = None).
    { destruct (items c' !! k) as [item'|] eqn:Hk'; [|reflexivity].
      destruct (proj1 (Hlook item') eq_refl) as [Hk'' _]. discriminate. }
    rewrite Hgone. split; reflexivity.
Qed.

Lemma DeleteExpired_invisible_to_Get_witness :
  Get (returned sampleStore (DeleteExpired sampleStore 500)) "a" 600 = (Nil, false) /\
  Get (returned sampleStore (DeleteExpired sampleStore 500)) "b" 600 = (Str "x", true).
Proof.
  split.
  - apply (eq_trans (proj1 (DeleteExpired_invisible_to_Get sampleStore _ 500 600 "a"
                              eq_refl ltac:(apply Z.leb_le; reflexivity)))).
    reflexivity.
  - apply (eq_trans (proj1 (DeleteExpired_invisible_to_Get sampleStore _ 500 600 "b"
                              eq_refl ltac:(apply Z.leb_le; reflexivity)))).
    reflexivity.
Defined.

(** X13 — Sweeping is idempotent: a second [DeleteExpired], at the
    same time as the first or earlier, finds nothing to remove; it
    returns the store unchanged, counter and hook calls included. *)
Theorem DeleteExpired_twice (c c' : cache) (T T' : Z) :
  DeleteExpired c T = Returns c' ->
  T' <= T ->
  DeleteExpired c' T' = Returns c'.
Proof.
  intros Hrun Hle.
  assert (Hnone : forall k v, (k, v) ∈ map_to_list (items c') -> expiredb T' v = false).
  { intros k v Hin. apply elem_of_map_to_list in Hin.
    apply (DeleteExpired_lookup c c' T k v Hrun) in Hin as [_ Hlive].
    apply expired_test_false. unfold expiredAt in *. lia. }
  destruct (DeleteExpired_returns c' T') as (c2 & Hrun2 & Hd & Hi & Hc & Ho & Hcalls).
  rewrite Hrun2. f_equal.
  rewrite (deleteWhere_none _ _ _ Hnone) in Hi, Hc.
  apply cache_eq; try assumption.
  rewrite Hcalls.
  rewrite (filter_none (fun kv : string * Item => expiredb T' kv.2)).
  - destruct (onEvicted c'); apply app_nil_r.
  - intros [k v] Hin. apply (Hnone k v Hin).
Qed.

Lemma DeleteExpired_twice_witness :
  DeleteExpired (returned hookedStore (DeleteExpired hookedStore 500)) 400
  = Returns (returned hookedStore (DeleteExpired hookedStore 500)).
Proof.
  apply (DeleteExpired_twice hookedStore _ 500 400 eq_refl).
  apply Z.leb_le. reflexivity.
Defined.

(** ** [Items], [Flush] and [Delete] *)

(** X14 — [Items] has exactly two outcomes.  It returns, and then
    returns the nil map, exactly when every entry of the store is
    expired at the time of the call (in particular on an empty store);
    it panics with the nil-map assignment error exactly when some entry
    is not expired. *)
Theorem Items_returns_iff_nothing_live (c : cache) (now : Z) :
  (Items c now = Returns nilMap <->
   forall k item, items c !! k = Some item -> expiredAt now item) /\
  (Items c now = Panics nilMapPanic <->
   exists k item, items c !! k = Some item /\ ~ expiredAt now item) /\
  (Items c now = Returns nilMap \/ Items c now = Panics nilMapPanic).
Proof.
  destruct (Items_outcome c now) as [Hpanic Hret].
  destruct (decide (map_Forall (fun _ item => expiredAt now item) (items c)))
    as [Hall | Hsome].
  - pose proof (Hret Hall) as Hrun. rewrite Hrun.
    split; [|split; [|left; reflexivity]].
    + split; [intros _; exact Hall | reflexivity].
    + split; [discriminate|]. intros (k & item & Hk & Hlive).
      destruct Hlive. apply (Hall k item Hk).
  - apply map_not_Forall in Hsome; [|apply _].
    pose proof (Hpanic Hsome) as Hrun. rewrite Hrun.
    split; [|split; [|right; reflexivity]].
    + split; [discriminate|]. intros Hall.
      destruct Hsome as (k & item & Hk & Hlive). destruct Hlive. eauto.
    + split; [intros _; exact Hsome | reflexivity].
Qed.

Lemma Flush_items (c : cache) : map_to_list (items (Flush c)) = [].
Proof. rewrite (proj1 (Flush_empty c)). apply map_to_list_empty. Qed.

(** X15 — After [Flush] the store is empty for every reader: [Get]
    misses every key at every time, [Items] returns (the nil map)
    instead of panicking, and a further [Flush] or [DeleteExpired]
    changes nothing at all. *)
Theorem after_Flush (c : cache) (k : string) (now : Z) :
  Get (Flush c) k now = (Nil, false) /\
  GetWithExpiration (Flush c) k now = (Nil, None, false) /\
  Items (Flush c) now = Returns nilMap /\
  Flush (Flush c) = Flush c /\
  DeleteExpired (Flush c) now = Returns (Flush c).
Proof.
  split; [|split; [|split; [|split]]].
  - unfold Get. rewrite (proj1 (Flush_empty c)), lookup_empty. reflexivity.
  - unfold GetWithExpiration. rewrite (proj1 (Flush_empty c)), lookup_empty.
    reflexivity.
  - unfold Items, Range. rewrite Flush_items. reflexivity.
  - unfold Flush at 1. unfold Range. rewrite Flush_items. reflexivity.
  - unfold DeleteExpired, Range. rewrite Flush_items. reflexivity.
Qed.

(** X16 — [Delete(k)] removes exactly [k]: afterwards [Get] misses [k]
    at every time and returns for every other key what it returned
    before; the hook and the default expiration are as they were. *)
Theorem Delete_then_Get (c : cache) (k : string) :
  exists c',
    Delete c k = Returns c' /\
    (forall now, Get c' k now = (Nil, false)) /\
    (forall k' now, k' <> k -> Get c' k' now = Get c k' now) /\
    onEvicted c' = onEvicted c /\
    defaultExpiration c' = defaultExpiration c.
Proof.
  destruct (Delete_returns c k) as (c' & Hrun & Hd & Hitems & _ & Ho & _).
  exists c'. split; [exact Hrun|]. repeat split; try assumption.
  - intros now. unfold Get. rewrite Hitems, lookup_delete_eq. reflexivity.
  - intros k' now Hne. unfold Get. rewrite Hitems, lookup_delete_ne by congruence.
    reflexivity.
Qed.

Lemma Delete_then_Get_witness :
  Get (returned sampleStore (Delete sampleStore "a")) "a" 105 = (Nil, false) /\
  Get (returned sampleStore (Delete sampleStore "a")) "b" 105 = (Str "x", true).
Proof.
  destruct (Delete_then_Get sampleStore "a") as (c' & Hrun & Hgone & Hother & _).
  vm_compute in Hrun. injection Hrun as <-.
  split.
  - apply (Hgone 105).
  - apply (eq_trans (Hother "b" 105 ltac:(discriminate))). reflexivity.
Defined.

(** ** The counter *)

Lemma wrapU_range (z : Z) : 0 <= wrapU 32 z < 2 ^ 32.
Proof. unfold wrapU. apply Z.mod_pos_bound. lia. Qed.


Lemma safeDelete_counterOk (c : cache) (k : string) : counterOk (safeDelete c k).
Proof. unfold counterOk. simpl. apply wrapU_range. Qed.

Lemma deleteWhere_counterOk (P : Item -> bool) (l : list (string * Item)) (c : cache) :
  counterOk c -> counterOk (deleteWhere P l c).
Proof.
  revert c. induction l as [|[k v] l IH]; intros c Hc; simpl; [exact Hc|].
  apply IH. destruct (P v); [apply safeDelete_counterOk | exact Hc].
Qed.



Lemma deleteWhere_exact (P : Item -> bool) (l : list (string * Item)) (c : cache) :
  NoDup l.*1 ->
  (forall k v, (k, v) ∈ l -> items c !! k = Some v) ->
  Z.of_nat (size (items c)) < 2 ^ 32 ->
  exactCount c ->
  exactCount (deleteWhere P l c).
Proof.
  revert c. induction l as [|[k v] l IH]; intros c Hnd Hin Hsize Hex; simpl;
    [exact Hex|].
  apply NoDup_cons in Hnd as [Hk Hnd].
  assert (Hpresent : items c !! k = Some v) by (apply Hin; left).
  destruct (P v).
  - assert (Hpos : (0 < size (items c))%nat).
    { destruct (size (items c)) eqn:Hs; [|lia].
      apply map_size_empty_iff in Hs. rewrite Hs, lookup_empty in Hpresent.
      discriminate. }
    assert (Hs1 : size (delete k (items c)) = pred (size (items c)))
      by (apply map_size_delete_Some; eauto).
    apply IH; [exact Hnd | | |].
    + intros k' v' Hin'. simpl. rewrite lookup_delete_ne.
      * apply Hin. right. exact Hin'.
      * intros ->. apply Hk. apply list_elem_of_fmap. exists (k', v'). auto.
    + simpl. rewrite Hs1. lia.
    + unfold exactCount in *. simpl. rewrite Hs1, Hex.
      rewrite wrapU_small by lia. lia.
  - apply IH; [exact Hnd | | exact Hsize | exact Hex].
    intros k' v' Hin'. apply Hin. right. exact Hin'.
Qed.

(** X18 — When the counter is the number of keys (fewer than
    [2^32 - 1] of them), it stays so across [Set] of a key that is not
    in the map, [Delete] of a key that is, [DeleteExpired] and [Flush].
    It stops being so on [Set] of a key already in the map (one too
    many) and on [Delete] of a key that is not (one too few, or
    [2^32 - 1] on an empty store). *)
Theorem exactCount_kept_and_lost (c : cache) :
  exactCount c ->
  Z.of_nat (size (items c)) + 1 < 2 ^ 32 ->
  (forall k x d now, items c !! k = None -> exactCount (Set_ c k x d now)) /\
  (forall k, is_Some (items c !! k) -> exactCount (returned c (Delete c k))) /\
  (forall now, exactCount (returned c (DeleteExpired c now))) /\
  exactCount (Flush c) /\
  (forall k x d now, is_Some (items c !! k) -> ~ exactCount (Set_ c k x d now)) /\
  (forall k, items c !! k = None -> ~ exactCount (returned c (Delete c k))).
Proof.
  intros Hex Hsize.
  split; [|split; [|split; [|split; [|split]]]].
  - intros k x d now Hk. unfold exactCount, Set_, safeStore. cbn [items counter].
    rewrite map_size_insert_None by exact Hk. rewrite Hex.
    rewrite wrapU_small by lia. lia.
  - intros k Hk.
    destruct (Delete_returns c k) as (c' & Hrun & _ & Hitems & Hcount & _).
    rewrite Hrun. unfold exactCount. simpl. rewrite Hitems, Hcount, Hex.
    rewrite map_size_delete_Some by exact Hk.
    assert (Hpos : (0 < size (items c))%nat).
    { destruct (size (items c)) eqn:Hs; [|lia].
      apply map_size_empty_iff in Hs. rewrite Hs, lookup_empty in Hk.
      destruct Hk as [? Hk]. discriminate. }
    rewrite wrapU_small by lia. lia.
  - intros now.
    destruct (DeleteExpired_returns c now) as (c' & Hrun & _ & Hitems & Hcount & _).
    rewrite Hrun. unfold exactCount. simpl. rewrite Hitems, Hcount.
    apply deleteWhere_exact; [apply NoDup_fst_map_to_list | | lia | exact Hex].
    intros k v Hin. apply elem_of_map_to_list. exact Hin.
  - unfold Flush, Range. rewrite Flush_scan.
    apply deleteWhere_exact; [apply NoDup_fst_map_to_list | | lia | exact Hex].
    intros k v Hin. apply elem_of_map_to_list. exact Hin.
  - intros k x d now Hk. unfold exactCount, Set_, safeStore. cbn [items counter].
    rewrite map_size_insert_Some by exact Hk. rewrite Hex.
    rewrite wrapU_small by lia. lia.
  - intros k Hk.
    destruct (Delete_returns c k) as (c' & Hrun & _ & Hitems & Hcount & _).
    rewrite Hrun. unfold exactCount. simpl. rewrite Hitems, Hcount, Hex.
    rewrite map_size_delete_None by exact Hk.
    destruct (size (items c)) as [|s] eqn:Hs.
    + unfold wrapU. change ((Z.of_nat 0 - 1) mod 2 ^ 32) with 4294967295.
      simpl. lia.
    + rewrite wrapU_small by lia. lia.
Qed.

Lemma exactCount_kept_and_lost_witness :
  exactCount (Set_ (New 0) "a" Nil 0 1) /\
  ~ exactCount (returned (New 0) (Delete (New 0) "a")).
Proof.
  assert (H0 : exactCount (New 0)) by reflexivity.
  assert (Hs : Z.of_nat (size (items (New 0))) + 1 < 2 ^ 32) by reflexivity.
  destruct (exactCount_kept_and_lost (New 0) H0 Hs) as (Hset & _ & _ & _ & _ & Hdel).
  split.
  - apply Hset. reflexivity.
  - apply Hdel. reflexivity.
Defined.

(** ** Registering the hook, building a cache *)

(** X19 — [OnEvicted] replaces the hook and touches nothing else: reads
    and the counter are as before; after [OnEvicted(nil)] neither
    [Delete] nor [DeleteExpired] makes a hook call, whatever hook was
    registered before; after [OnEvicted(g)] a [Delete] of a present key
    makes its one call to [g]. *)
Theorem OnEvicted_replaces_hook (c : cache) :
  (forall f k now,
      Get (OnEvicted c f) k now = Get c k now /\
      ItemCount (OnEvicted c f) = ItemCount c) /\
  (forall k, calls (returned c (Delete (OnEvicted c None) k)) = calls c) /\
  (forall now, calls (returned c (DeleteExpired (OnEvicted c None) now)) = calls c) /\
  (forall g k item,
      items c !! k = Some item ->
      calls (returned c (Delete (OnEvicted c (Some g)) k))
      = calls c ++ [{| fn := g; argKey := k; argValue := Object item |}]).
Proof.
  split; [intros f k now; split; reflexivity|]. split; [|split].
  - intros k.
    destruct (Delete_returns (OnEvicted c None) k) as (c' & Hrun & _ & _ & _ & _ & Hcalls).
    rewrite Hrun. simpl in *. rewrite Hcalls. apply app_nil_r.
  - intros now.
    destruct (DeleteExpired_returns (OnEvicted c None) now)
      as (c' & Hrun & _ & _ & _ & _ & Hcalls).
    rewrite Hrun. simpl in *. rewrite Hcalls. apply app_nil_r.
  - intros g k item Hk.
    destruct (Delete_returns (OnEvicted c (Some g)) k)
      as (c' & Hrun & _ & _ & _ & _ & Hcalls).
    rewrite Hrun. simpl in *. rewrite Hcalls, Hk. reflexivity.
Qed.

Lemma OnEvicted_replaces_hook_witness :
  calls (returned hookedStore (Delete (OnEvicted hookedStore (Some 9%nat)) "b"))
  = [{| fn := 9%nat; argKey := "b"; argValue := Str "x" |}].
Proof.
  apply (proj2 (proj2 (proj2 (OnEvicted_replaces_hook hookedStore)))
           9%nat "b" {| Object := Str "x"; Expiration := 0 |}).
  reflexivity.
Defined.

Lemma wrapU_neg (s : Z) : 0 < s < 2 ^ 32 -> wrapU 32 (0 - s) = 2 ^ 32 - s.
Proof.
  intros Hs. unfold wrapU.
  replace (0 - s) with (2 ^ 32 - s + (-1) * 2 ^ 32) by lia.
  rewrite Z_mod_plus_full. apply Z.mod_small. lia.
Qed.

(** X20 — [NewFrom] serves the entries of the map it is given but does
    not count them: a live entry of the map is returned by [Get], while
    [ItemCount] starts at 0; so deleting one of those entries wraps the
    counter to [2^32 - 1], and [Flush] leaves it at [2^32] minus the
    number of entries. *)
Theorem NewFrom_serves_but_does_not_count (de : Z) (m : gmap string Item) :
  ItemCount (NewFrom de m) = 0 /\
  (forall k item now,
      m !! k = Some item -> ~ expiredAt now item ->
      Get (NewFrom de m) k now = (Object item, true)) /\
  (forall k,
      ItemCount (returned (NewFrom de m) (Delete (NewFrom de m) k)) = 2 ^ 32 - 1) /\
  (0 < Z.of_nat (size m) < 2 ^ 32 ->
   ItemCount (Flush (NewFrom de m)) = 2 ^ 32 - Z.of_nat (size m)).
Proof.
  split; [reflexivity|]. split; [|split].
  - intros k item now Hk Hlive. unfold Get, NewFrom, newCache. cbn [items].
    rewrite Hk. apply expired_test_false in Hlive. rewrite Hlive. reflexivity.
  - intros k.
    destruct (Delete_returns (NewFrom de m) k) as (c' & Hrun & _ & _ & Hcount & _).
    rewrite Hrun. unfold ItemCount. simpl. rewrite Hcount. reflexivity.
  - intros Hsize.
    assert (Hok : counterOk (Flush (NewFrom de m))).
    { unfold Flush, Range. rewrite Flush_scan. apply deleteWhere_counterOk.
      unfold counterOk. simpl. lia. }
    destruct (Flush_empty (NewFrom de m)) as (_ & _ & _ & _ & Hmod).
    unfold ItemCount in *. rewrite (wrapU_small 32 _ Hok) in Hmod.
    rewrite Hmod. apply wrapU_neg. exact Hsize.
Qed.

Lemma NewFrom_serves_but_does_not_count_witness :
  Get negativeEntry "n" 100 = (Integer Int64 5, true) /\
  ItemCount (Flush negativeEntry) = 4294967295.
Proof.
  destruct (NewFrom_serves_but_does_not_count 0
              {[ "n" := {| Object := Integer Int64 5; Expiration := -7 |} ]})
    as (_ & Hget & _ & Hflush).
  split.
  - apply (Hget "n" {| Object := Integer Int64 5; Expiration := -7 |} 100 eq_refl).
    unfold expiredAt. simpl. lia.
  - apply Hflush. split; reflexivity.
Defined.

Lemma Set_read_back (c : cache) (k : string) (x : any) (d now : Z) :
  (effective c d <= 0 -> forall now', Get (Set_ c k x d now) k now' = (x, true)) /\
  (0 < effective c d -> 0 < now + effective c d < 2 ^ 63 ->
   forall now',
     (now' <= now + effective c d -> Get (Set_ c k x d now) k now' = (x, true)) /\
     (now + effective c d < now' -> Get (Set_ c k x d now) k now' = (Nil, false))).
Proof.
  split.
  - intros Hd now'. unfold Get. rewrite Set_lookup, lookup_insert_eq.
    replace (0 <? effective c d) with false by (symmetry; apply Z.ltb_ge; lia).
    reflexivity.
  - intros Hd Hrange now'.
    assert (He : unixNanoAfter now (effective c d) = now + effective c d).
    { unfold unixNanoAfter. apply wrapS_small; [lia|].
      change (64 - 1) with 63. lia. }
    unfold Get. rewrite Set_lookup, lookup_insert_eq.
    replace (0 <? effective c d) with true by (symmetry; apply Z.ltb_lt; lia).
    rewrite He. cbn [Expiration Object].
    replace (0 <? now + effective c d) with true by (symmetry; apply Z.ltb_lt; lia).
    split; intros Hnow'.
    + replace (now + effective c d <? now') with false
        by (symmetry; apply Z.ltb_ge; lia).
      reflexivity.
    + replace (now + effective c d <? now') with true
        by (symmetry; apply Z.ltb_lt; lia).
      reflexivity.
Qed.

(** X21 — The default expiration of a new cache: given 0 or a negative
    value, entries stored with [SetDefault] (or with
    [DefaultExpiration]) never expire; given a positive value [de],
    such an entry stored at [now] is returned up to and including time
    [now + de] and is not found afterwards. *)
Theorem default_expiration_of_new_cache
    (de : Z) (m : gmap string Item) (k : string) (x : any) (now : Z) :
  (de <= 0 ->
   forall now', Get (SetDefault (NewFrom de m) k x now) k now' = (x, true)) /\
  (0 < de -> 0 < now + de < 2 ^ 63 ->
   forall now',
     (now' <= now + de ->
      Get (SetDefault (NewFrom de m) k x now) k now' = (x, true)) /\
     (now + de < now' ->
      Get (SetDefault (NewFrom de m) k x now) k now' = (Nil, false))).
Proof.
  unfold SetDefault.
  destruct (Set_read_back (NewFrom de m) k x DefaultExpiration now)
    as (Hnever & Hpos).
  assert (Heff : effective (NewFrom de m) DefaultExpiration
                 = if de =? 0 then -1 else de) by reflexivity.
  split.
  - intros Hde now'. apply Hnever. rewrite Heff.
    destruct (de =? 0) eqn:H0; lia.
  - intros Hde Hrange now'.
    assert (Heff' : effective (NewFrom de m) DefaultExpiration = de).
    { rewrite Heff. replace (de =? 0) with false
        by (symmetry; apply Z.eqb_neq; lia). reflexivity. }
    rewrite Heff' in Hpos. apply Hpos; assumption.
Qed.

Lemma default_expiration_of_new_cache_witness :
  Get (SetDefault (NewFrom 0 ∅) "k" (Str "v") 1000) "k" 999999 = (Str "v", true) /\
  Get (SetDefault (NewFrom 50 ∅) "k" (Str "v") 1000) "k" 1050 = (Str "v", true) /\
  Get (SetDefault (NewFrom 50 ∅) "k" (Str "v") 1000) "k" 1051 = (Nil, false).
Proof.
  split; [|split].
  - apply (proj1 (default_expiration_of_new_cache 0 ∅ "k" (Str "v") 1000)).
    apply Z.leb_le. reflexivity.
  - apply (proj2 (default_expiration_of_new_cache 50 ∅ "k" (Str "v") 1000)
             ltac:(reflexivity) ltac:(split; reflexivity) 1050).
    apply Z.leb_le. reflexivity.
  - apply (proj2 (default_expiration_of_new_cache 50 ∅ "k" (Str "v") 1000)
             ltac:(reflexivity) ltac:(split; reflexivity) 1051).
    reflexivity.
Defined.

(** X22 — Once [Add(k, x, NoExpiration)] has succeeded, every later
    [Add] for [k], with any value, duration and times, fails with the
    already-exists error and changes nothing, and [Get] keeps returning
    [x]. *)
Theorem Add_then_Add (c c1 : cache) (k : string) (x : any) (now now' : Z) :
  Add c k x NoExpiration now now' = (c1, None) ->
  (forall y d t t',
      Add c1 k y d t t' = (c1, Some ("Item " +:+ k +:+ " already exists"))) /\
  (forall t, Get c1 k t = (x, true)).
Proof.
  intros Hadd. unfold Add in Hadd.
  destruct (get c k now) as [v found]. destruct found; [discriminate|].
  injection Hadd as <-.
  assert (Hk : items (set c k x NoExpiration now') !! k
               = Some {| Object := x; Expiration := 0 |})
    by (unfold set, safeStore; cbn [items]; apply lookup_insert_eq).
  split.
  - intros y d t t'. unfold Add, get. rewrite Hk. reflexivity.
  - intros t. unfold Get. rewrite Hk. reflexivity.
Qed.

Lemma Add_then_Add_witness :
  Add (fst (Add (New 0) "x" (Integer Int 5) NoExpiration 10 10)) "x" (Integer Int 9)
      NoExpiration 20 20
  = (fst (Add (New 0) "x" (Integer Int 5) NoExpiration 10 10),
     Some "Item x already exists"%string) /\
  Get (fst (Add (New 0) "x" (Integer Int 5) NoExpiration 10 10)) "x" 30
  = (Integer Int 5, true).
Proof.
  destruct (Add_then_Add (New 0) _ "x" (Integer Int 5) 10 10 eq_refl) as [Hadd Hget].
  split; [apply Hadd | apply Hget].
Defined.

(** X23 — After a successful typed increment or decrement, [Get] finds
    the key at exactly the times it found it before (the call moves no
    expiry), and what it then returns is the new value. *)
Theorem Get_after_typed_increment (op : Z -> Z -> Z) (kd : intKind) (c c' : cache)
    (k : string) (n now nv : Z) :
  mutateInteger op kd c k n now = (c', (nv, None)) ->
  forall now',
    snd (Get c' k now') = snd (Get c k now') /\
    (snd (Get c k now') = true -> Get c' k now' = (Integer kd nv, true)) /\
    (forall k', k' <> k -> Get c' k' now' = Get c k' now').
Proof.
  intros Hrun now'.
  destruct (mutateInteger_rewrites _ _ _ _ _ _ _ _ Hrun)
    as [(item & x' & Hk & Hx & ->) Hnew].
  assert (Hother : forall k', k' <> k ->
            items (safeStore c k {| Object := x'; Expiration := Expiration item |}) !! k'
            = items c !! k').
  { intros k' Hne. unfold safeStore; cbn [items]. apply lookup_insert_ne. congruence. }
  split; [|split].
  - unfold Get. rewrite Hnew, Hk. cbn [from_option Expiration Object].
    destruct ((0 <? Expiration item) && (Expiration item <? now')); reflexivity.
  - unfold Get. rewrite Hnew, Hk. cbn [from_option Expiration Object].
    destruct ((0 <? Expiration item) && (Expiration item <? now'));
      [discriminate | reflexivity].
  - intros k' Hne. unfold Get. rewrite (Hother k' Hne). reflexivity.
Qed.

Lemma Get_after_typed_increment_witness :
  Get (fst (IncrementInt64 sampleStore "a" 7 105)) "a" 110 = (Integer Int64 12, true) /\
  snd (Get (fst (IncrementInt64 sampleStore "a" 7 105)) "a" 111) = false.
Proof.
  pose proof (Get_after_typed_increment Z.add Int64 sampleStore _ "a" 7 105 12 eq_refl)
    as H.
  split.
  - apply (proj1 (proj2 (H 110))). reflexivity.
  - apply (eq_trans (proj1 (H 111))). reflexivity.
Defined.
